(** * studyfreind: the text-analysis and question-generation pipeline of app.py

    A shallow embedding of [app.py] (sentence splitting, tokenisation, term
    scoring, the fill-in-the-blank and true/false generators, the quiz
    orchestrator and the output formatter), followed by the properties the
    specification states about them.

    Python [str] values are sequences of Unicode code points; they are
    modelled as lists of code points, so that [len] is [length] and indexing
    is per code point, as in the source.  The program catches no exception:
    the [ValueError] that [int] and [str] raise on a number with too many
    digits leaves every function on the way, and is modelled by the result
    [None]. *)

From Stdlib Require Import Strings.String Strings.Ascii Strings.Byte.
From Stdlib Require Import List ZArith QArith Lia Bool.
From Stdlib Require Import Permutation Sorted.
Import ListNotations.
Open Scope Z_scope.

(* ================================================================= *)
(** * The interpreter *)

(** The limit of the interpreter on the conversion between [int] and
    [str]: [sys.get_int_max_str_digits()].  It is 4300 unless the
    interpreter is started or set otherwise, and 0 when there is no limit;
    the interpreter accepts no other value below 640, and checks no number
    of 640 digits or fewer.  The program does not set it. *)
Class IntLimit := {
  max_str_digits : Z;
  max_str_digits_range : max_str_digits = 0 \/ 640 <= max_str_digits
}.

(** The default of the interpreter. *)
#[local] Instance default_limit : IntLimit.
Proof. refine {| max_str_digits := 4300 |}. right. lia. Defined.

(** A number of [digits] digits is refused: the conversion raises
    [ValueError]. *)
Definition exceeds_limit {IL : IntLimit} (digits : Z) : bool :=
  (0 <? max_str_digits) && (max_str_digits <? digits).

(* ================================================================= *)
(** * Strings *)

Module Str.

(** A code point. *)
Definition char := Z.
Definition str := list char.

(** Decoding of a UTF-8 byte sequence; used to write the string literals
    of the source as they appear there. *)
Fixpoint utf8_decode (bs : list Z) : str :=
  match bs with
  | [] => []
  | b0 :: r0 =>
    if b0 <? 128 then b0 :: utf8_decode r0
    else if b0 <? 224 then
      match r0 with
      | b1 :: r1 => ((b0 - 192) * 64 + (b1 - 128)) :: utf8_decode r1
      | _ => []
      end
    else if b0 <? 240 then
      match r0 with
      | b1 :: b2 :: r2 =>
        ((b0 - 224) * 4096 + (b1 - 128) * 64 + (b2 - 128)) :: utf8_decode r2
      | _ => []
      end
    else
      match r0 with
      | b1 :: b2 :: b3 :: r3 =>
        ((b0 - 240) * 262144 + (b1 - 128) * 4096 + (b2 - 128) * 64 + (b3 - 128))
          :: utf8_decode r3
      | _ => []
      end
  end.

Definition lit (s : string) : str :=
  utf8_decode (map (fun b => Z.of_N (Byte.to_N b)) (list_byte_of_string s)).

(** [len(s)] *)
Definition len (s : str) : Z := Z.of_nat (length s).

Fixpoint eqb (a b : str) : bool :=
  match a, b with
  | [], [] => true
  | x :: a', y :: b' => (x =? y) && eqb a' b'
  | _, _ => false
  end.

(** [s.startswith(p)] *)
Fixpoint startswith (p s : str) : bool :=
  match p, s with
  | [], _ => true
  | x :: p', y :: s' => (x =? y) && startswith p' s'
  | _ :: _, [] => false
  end.

(** [s.find(p)]: the index of the first occurrence of [p] in [s]. *)
Fixpoint find (p s : str) : option nat :=
  if startswith p s then Some 0%nat
  else match s with
       | [] => None
       | _ :: r => option_map S (find p r)
       end.

(** [s.replace(old, new, 1)]: the first occurrence of [old] replaced. *)
Fixpoint replace_first (old new s : str) : str :=
  if startswith old s then new ++ skipn (length old) s
  else match s with
       | [] => []
       | c :: r => c :: replace_first old new r
       end.

(** The start positions of the occurrences of [p] in [s]. *)
Fixpoint occurrences (p s : str) : list nat :=
  (if startswith p s then [0%nat] else [])
    ++ match s with
       | [] => []
       | _ :: r => map S (occurrences p r)
       end.

(** [p in s] for strings. *)
Definition contains (p s : str) : bool :=
  match find p s with Some _ => true | None => false end.

(** [x in l] for a list or a set of strings. *)
Definition mem (x : str) (l : list str) : bool := existsb (eqb x) l.

(** Unicode whitespace, as [str.isspace], [str.strip] and the [\s] of
    [re] on [str] patterns see it. *)
Definition isspace (c : char) : bool :=
  ((9 <=? c) && (c <=? 13)) || ((28 <=? c) && (c <=? 32))
  || (c =? 133) || (c =? 160) || (c =? 5760)
  || ((8192 <=? c) && (c <=? 8202))
  || (c =? 8232) || (c =? 8233) || (c =? 8239) || (c =? 8287)
  || (c =? 12288).

Fixpoint lstrip (s : str) : str :=
  match s with
  | [] => []
  | c :: r => if isspace c then lstrip r else s
  end.

(** [s.strip()] *)
Definition strip (s : str) : str := rev (lstrip (rev (lstrip s))).

(** [s.lower()] on the characters a token is made of: ASCII letters are
    folded, digits, the apostrophe, the dot and Hangul syllables have no
    case. *)
Definition lower_char (c : char) : char :=
  if (65 <=? c) && (c <=? 90) then c + 32 else c.
Definition lower (s : str) : str := map lower_char s.

(** The longest prefix of [s] whose characters satisfy [p], and the rest:
    a greedy [[p]*]. *)
Fixpoint span (p : char -> bool) (s : str) : str * str :=
  match s with
  | [] => ([], [])
  | c :: r =>
    if p c then let (a, b) := span p r in (c :: a, b) else ([], s)
  end.

(** Decimal digits of a non-negative integer, most significant first. *)
Fixpoint digits_fuel (fuel : nat) (n : Z) (acc : str) : str :=
  match fuel with
  | O => acc
  | S f =>
    let acc' := (48 + n mod 10) :: acc in
    if n <? 10 then acc' else digits_fuel f (n / 10) acc'
  end.

(** The decimal writing of an integer. *)
Definition decimal (n : Z) : str :=
  if n <? 0
  then 45 :: digits_fuel (S (Z.to_nat (Z.log2 (- n)))) (- n) []
  else digits_fuel (S (Z.to_nat (Z.log2 n))) n [].

(** [str(n)] for an integer: the decimal writing, or [None] for the
    [ValueError] that is raised when [n] has more digits than the limit of
    the interpreter allows. *)
Definition of_Z {IL : IntLimit} (n : Z) : option str :=
  let s := decimal n in
  if exceeds_limit (if n <? 0 then len s - 1 else len s)
  then None else Some s.

End Str.

Import Str.

(* ================================================================= *)
(** * Settings *)

Definition STOPWORDS : list str := map lit
  [ "a";"an";"the";"and";"or";"but";"if";"then";"so";"because";"as";"of";"in";
    "on";"at";"to";"for";"from";"by";"with";
    "about";"into";"through";"during";"before";"after";"above";"below";"up";
    "down";"out";"over";"under";"again";"further";
    "here";"there";"when";"where";"why";"how";"all";"any";"both";"each";"few";
    "more";"most";"other";"some";"such";"no";
    "nor";"not";"only";"own";"same";"so";"than";"too";"very";"can";"will";
    "just";"should";"now";
    "이";"그";"저";"것";"수";"등";"및";"또는";"그리고";"그래서";"또한";"은";"는";
    "이";"가";"을";"를";"의";"에";"에서";"으로";"로";"와";"과";"도";"만" ]%string.

(** The character classes of [WORD_PATTERN]. *)
Definition is_alpha (c : char) : bool :=
  ((65 <=? c) && (c <=? 90)) || ((97 <=? c) && (c <=? 122)).
Definition is_digit (c : char) : bool := (48 <=? c) && (c <=? 57).
Definition is_hangul (c : char) : bool := (44032 <=? c) && (c <=? 55203).

(** One alternative of the shape [[p]+(?:sep[p]+)?], matched at the start of
    [s]: the match and what follows it.  The run is greedy; the optional
    group is taken when the separator is followed by at least one more
    character of the class. *)
Definition match_run_opt (p : char -> bool) (sep : char) (s : str)
  : option (str * str) :=
  match span p s with
  | ([], _) => None
  | (a, r) =>
    match r with
    | c :: r' =>
      if c =? sep then
        match span p r' with
        | ([], _) => Some (a, r)
        | (b, r'') => Some (a ++ sep :: b, r'')
        end
      else Some (a, r)
    | [] => Some (a, r)
    end
  end.

(** One alternative of the shape [[p]+]. *)
Definition match_run (p : char -> bool) (s : str) : option (str * str) :=
  match span p s with
  | ([], _) => None
  | (a, r) => Some (a, r)
  end.

(** [WORD_PATTERN.match] at the start of [s]:
    [[A-Za-z]+(?:'[A-Za-z]+)?|[0-9]+(?:\.[0-9]+)?|[가-힣]+]. *)
Definition WORD_PATTERN (s : str) : option (str * str) :=
  match match_run_opt is_alpha 39 s with
  | Some m => Some m
  | None =>
    match match_run_opt is_digit 46 s with
    | Some m => Some m
    | None => match_run is_hangul s
    end
  end.

(** [pat.finditer]: the non-overlapping matches, scanning left to right; a
    position where the pattern does not match is skipped.  Each round
    consumes at least one character, so [length s] rounds are enough. *)
Fixpoint finditer (pat : str -> option (str * str)) (fuel : nat) (s : str)
  : list str :=
  match fuel with
  | O => []
  | S f =>
    match s with
    | [] => []
    | _ :: r =>
      match pat s with
      | Some (t, rest) => t :: finditer pat f rest
      | None => finditer pat f r
      end
    end
  end.

(* ================================================================= *)
(** * Utilities *)

Definition tokenize (text : str) : list str :=
  finditer WORD_PATTERN (length text) text.

(** [re.sub(r'\s+', ' ', text)]: every maximal run of whitespace becomes one
    space.  [in_run] tells that the previous character belonged to the run
    being replaced. *)
Fixpoint sub_spaces (in_run : bool) (text : str) : str :=
  match text with
  | [] => []
  | c :: r =>
    if isspace c
    then if in_run then sub_spaces true r else 32 :: sub_spaces true r
    else c :: sub_spaces false r
  end.

(** The lookbehind [(?<=[\.\!\?\。\?!]|다)]: the character before the
    position is one of [. ! ? 。] or [다]. *)
Definition sentence_end (prev : option char) : bool :=
  match prev with
  | None => false
  | Some c =>
    (c =? 46) || (c =? 33) || (c =? 63) || (c =? 12290) || (c =? 45796)
  end.

Definition push (c : char) (parts : list str) : list str :=
  match parts with
  | [] => [[c]]
  | p :: ps => (c :: p) :: ps
  end.

(** [re.split(r'(?<=[\.\!\?\。\?!]|다)\s+', text)].  [prev] is the character
    before the position and [in_sep] tells that the position is inside a
    separator being matched ([\s+] is greedy).  The head of the result is the
    part that the position belongs to. *)
Fixpoint split_after_end (prev : option char) (in_sep : bool) (text : str)
  : list str :=
  match text with
  | [] => [[]]
  | c :: r =>
    if isspace c then
      if in_sep then split_after_end (Some c) true r
      else if sentence_end prev then [] :: split_after_end (Some c) true r
      else push c (split_after_end (Some c) false r)
    else push c (split_after_end (Some c) false r)
  end.

Definition split_sentences (text : str) : list str :=
  match text with
  | [] => []
  | _ =>
    let text := strip (sub_spaces false text) in
    let parts := split_after_end None false text in
    map strip (filter (fun p => 3 <=? len (strip p)) parts)
  end.

(** A [dict] with string keys, in insertion order. *)
Fixpoint dict_get {V : Type} (k : str) (d : list (str * V)) : option V :=
  match d with
  | [] => None
  | (k', v) :: r => if eqb k' k then Some v else dict_get k r
  end.

Fixpoint dict_set {V : Type} (k : str) (v : V) (d : list (str * V))
  : list (str * V) :=
  match d with
  | [] => [(k, v)]
  | (k', v') :: r =>
    if eqb k' k then (k', v) :: r else (k', v') :: dict_set k v r
  end.

(** [collections.Counter(l)] *)
Definition Counter (l : list str) : list (str * Z) :=
  fold_left
    (fun c t =>
       dict_set t (match dict_get t c with Some n => n + 1 | None => 1 end) c)
    l [].

(** [sorted(l, key=key, reverse=True)]: the sort is stable, also under
    [reverse=True], and a stable sort has one possible result, which
    insertion from the right produces. *)
Fixpoint insert_desc {A : Type} (key : A -> Q) (x : A) (l : list A) : list A :=
  match l with
  | [] => [x]
  | y :: r =>
    if Qle_bool (key y) (key x) then x :: l else y :: insert_desc key x r
  end.

Definition sorted_reverse {A : Type} (key : A -> Q) (l : list A) : list A :=
  fold_right (insert_desc key) [] l.

(** [f + len(t)/4].  The quotient is a float in the source; a multiple of
    1/4 of this size is exact there, so the rational is the value. *)
Definition score_of (t : str) (f : Z) : Q := (inject_Z f + inject_Z (len t) / 4)%Q.

Definition score_tokens (text : str) (sents : list str) : list (str * Q) :=
  let tokens := fold_left (fun acc s => acc ++ tokenize s) sents [] in
  let freq :=
    Counter (filter (fun t => negb (mem (lower t) STOPWORDS)) tokens) in
  let scores :=
    fold_left (fun d tf => dict_set (fst tf) (score_of (fst tf) (snd tf)) d)
              freq [] in
  sorted_reverse snd scores.

(* ================================================================= *)
(** * Fill in the blank *)

Definition BLANK : str := lit "____".

(** [max(toks, key=len)], the first of the longest ones, for [t0 :: ts]. *)
Definition max_by_len (t0 : str) (ts : list str) : str :=
  fold_left (fun best t => if len best <? len t then t else best) ts t0.

(** The [for target in candidates] loop: [re.escape] makes the pattern the
    literal [target], so [search] is a substring search and [sub] with
    [count=1] replaces its first occurrence. *)
Fixpoint first_target (sent : str) (candidates : list str)
  : option (str * str) :=
  match candidates with
  | [] => None
  | target :: more =>
    if contains target sent
    then Some (replace_first target BLANK sent, target)
    else first_target sent more
  end.

(** [None] stands for the pair [(None, None)] of the source. *)
Definition make_fill_in_blank (sent : str) (scored_tokens : list (str * Q))
  : option (str * str) :=
  let toks := tokenize sent in
  let candidates :=
    filter (fun t => (2 <=? len t) && negb (mem t STOPWORDS)) toks in
  let candidates :=
    match candidates, toks with
    | [], t0 :: ts => [max_by_len t0 ts]
    | _, _ => candidates
    end in
  first_target sent candidates.

(* ================================================================= *)
(** * True / false *)

(** The decimal digits of the Unicode database of the interpreter: what
    [\d] matches on a [str] and what [int] reads.  The table belongs to the
    interpreter, not to the program, so it is a parameter; it contains the
    ASCII digits with their values, and every digit has a value from 0 to
    9. *)
Class DecimalTable := {
  isdecimal : char -> bool;
  decimal_value : char -> Z;
  isdecimal_ascii : forall c, is_digit c = true -> isdecimal c = true;
  decimal_value_ascii : forall c, is_digit c = true -> decimal_value c = c - 48;
  decimal_value_range :
    forall c, isdecimal c = true -> 0 <= decimal_value c <= 9
}.

(** The table with the ASCII digits only. *)
#[local] Instance ascii_decimals : DecimalTable.
Proof.
  refine {| isdecimal := is_digit; decimal_value := fun c => c - 48 |};
    intros; auto.
  unfold is_digit in *.
  apply andb_true_iff in H; destruct H as [H1 H2].
  apply Z.leb_le in H1; apply Z.leb_le in H2; lia.
Defined.

(** A [random.Random] object, by the state it carries.  [random53] is
    [random()]: the float it returns is [k / 2^53] for the integer [k] given
    here; [randbelow n] is [_randbelow(n)], from which [choice] and
    [randint] are made. *)
Class RandomSource (R : Type) := {
  random53 : R -> Z * R;
  randbelow : Z -> R -> Z * R;
  random53_range : forall r, 0 <= fst (random53 r) < 2 ^ 53;
  randbelow_range : forall n r, 0 < n -> 0 <= fst (randbelow n r) < n
}.

(** A source that replays a tape of raw draws. *)
Definition Tape := list Z.

#[local] Instance tape_source : RandomSource Tape.
Proof.
  refine {| random53 := fun t =>
              match t with [] => (0, []) | x :: t' => (x mod 2 ^ 53, t') end;
            randbelow := fun n t =>
              match t with [] => (0, []) | x :: t' => (x mod n, t') end |}.
  - intros [|x t]; simpl; [lia | apply Z.mod_pos_bound; lia].
  - intros n [|x t] Hn; simpl; [lia | apply Z.mod_pos_bound; lia].
Defined.

Section Generators.

Context {IL : IntLimit} {DT : DecimalTable}.
Context {R : Type} {RS : RandomSource R}.

(** [rnd.random() < 0.6].  The float [0.6] is
    [5404319552844595 / 2^53]. *)
Definition random_below_0_6 (rnd : R) : bool * R :=
  let (k, rnd') := random53 rnd in (k <? 5404319552844595, rnd').

(** [rnd.choice(seq)] for a non-empty [seq], of which [d] is an element. *)
Definition choice {A : Type} (seq : list A) (d : A) (rnd : R) : A * R :=
  let (i, rnd') := randbelow (Z.of_nat (length seq)) rnd in
  (nth (Z.to_nat i) seq d, rnd').

(** [rnd.randint(a, b)] *)
Definition randint (a b : Z) (rnd : R) : Z * R :=
  let (k, rnd') := randbelow (b - a + 1) rnd in (a + k, rnd').

(** [re.findall(r'\d+', s)] *)
Definition findall_digits (s : str) : list str :=
  finditer (match_run isdecimal) (length s) s.

(** The number that a run of decimal digits writes. *)
Definition digits_value (n : str) : Z :=
  fold_left (fun acc c => acc * 10 + decimal_value c) n 0.

(** [int(n)] for a run of decimal digits: its number, or [None] for the
    [ValueError] that is raised when the run has more digits than the
    limit of the interpreter allows (leading zeros count). *)
Definition int_of (n : str) : option Z :=
  if exceeds_limit (len n) then None else Some (digits_value n).

(** [make_true_false(sent, scored_tokens, rnd)] with the source given, as
    [generate_quiz] calls it; the state of the source after the call is
    returned with the result.  [None] stands for the [ValueError] of
    [int] or [str], which nothing catches.  In
    [str(int(n)+rnd.randint(1,10))] the number is read before the
    integer is drawn. *)
Definition make_true_false (sent : str) (scored_tokens : list (str * Q))
           (rnd : R) : option ((str * bool * str) * R) :=
  let explanation := lit "원문: '" ++ sent ++ lit "'" in
  let nums := findall_digits sent in
  match nums with
  | [] => Some ((sent, true, explanation), rnd)
  | n0 :: _ =>
    let (below, rnd1) := random_below_0_6 rnd in
    if below then
      let (n, rnd2) := choice nums n0 rnd1 in
      match int_of n with
      | None => None
      | Some v =>
        let (k, rnd3) := randint 1 10 rnd2 in
        match of_Z (v + k) with
        | None => None
        | Some new_n =>
          let s := replace_first n new_n sent in
          Some ((s, false,
                 explanation ++ lit " -> 숫자 변경 " ++ n ++ lit "→"
                             ++ new_n),
                rnd3)
        end
      end
    else Some ((sent, true, explanation), rnd1)
  end.

(* =============================================================== *)
(** * Quiz *)

Record TrueFalse := {
  tf_statement : str;
  tf_answer : bool;
  tf_explanation : str
}.

Record FillBlank := {
  blank_question : str;
  blank_answer : str
}.

Record Quiz := {
  tf : list TrueFalse;
  blank : list FillBlank
}.

(** The variables of the loop of [generate_quiz]. *)
Record Walk := {
  tf_list : list TrueFalse;
  blank_list : list FillBlank;
  rnd_state : R
}.

(** One round of the loop, up to the test that leaves it; [None] when
    [make_true_false] raises. *)
Definition quiz_round (num_tf num_blank : Z) (scored : list (str * Q))
           (s : str) (w : Walk) : option Walk :=
  match
    (if Z.of_nat (length (tf_list w)) <? num_tf
     then
       match make_true_false s scored (rnd_state w) with
       | Some ((q, truth, expl), rnd') =>
         Some (tf_list w ++ [{| tf_statement := q; tf_answer := truth;
                                tf_explanation := expl |}], rnd')
       | None => None
       end
     else Some (tf_list w, rnd_state w))
  with
  | None => None
  | Some (tfl, rnd) =>
    let bl :=
      if Z.of_nat (length (blank_list w)) <? num_blank
      then
        match make_fill_in_blank s scored with
        | Some ((_ :: _) as q, a) =>
          blank_list w ++ [{| blank_question := q; blank_answer := a |}]
        | _ => blank_list w
        end
      else blank_list w in
    Some {| tf_list := tfl; blank_list := bl; rnd_state := rnd |}
  end.

(** The test before [break]: both quotas are met. *)
Definition quiz_full (num_tf num_blank : Z) (w : Walk) : bool :=
  (num_tf <=? Z.of_nat (length (tf_list w)))
  && (num_blank <=? Z.of_nat (length (blank_list w))).

(** The [for s in sents] loop: the variables when it is left, and the
    sentences it has not visited; [None] when a round raises. *)
Fixpoint quiz_walk (num_tf num_blank : Z) (scored : list (str * Q))
         (sents : list str) (w : Walk) : option (Walk * list str) :=
  match sents with
  | [] => Some (w, [])
  | s :: rest =>
    match quiz_round num_tf num_blank scored s w with
    | None => None
    | Some w' =>
      if quiz_full num_tf num_blank w' then Some (w', rest)
      else quiz_walk num_tf num_blank scored rest w'
    end
  end.

(** [generate_quiz(text, num_tf, num_blank)].  The function has no
    parameter for the random source: it makes one with [random.Random()],
    which the interpreter seeds from the entropy of the system.  [fresh]
    is the state of that new object; a caller of the function does not
    choose it.  [None] when the loop raises. *)
Definition generate_quiz (fresh : R) (text : str) (num_tf num_blank : Z)
  : option Quiz :=
  let sents := split_sentences text in
  let scored := score_tokens text sents in
  let w := {| tf_list := []; blank_list := []; rnd_state := fresh |} in
  match quiz_walk num_tf num_blank scored sents w with
  | None => None
  | Some (w', _) => Some {| tf := tf_list w'; blank := blank_list w' |}
  end.

(* =============================================================== *)
(** * Discussion topics *)

(** [l[:n]] *)
Definition slice_to {A : Type} (l : list A) (n : Z) : list A :=
  if n <? 0 then firstn (length l - Z.to_nat (- n)) l
  else firstn (Z.to_nat n) l.

Definition generate_discussion_topics (text : str) (num : Z) : list str :=
  let sents := split_sentences text in
  fold_left
    (fun topics s =>
       topics ++ [lit "'" ++ s
                  ++ lit "'의 핵심 의미와 사회적/역사적 영향을 토론하시오."])
    (slice_to sents num) [].

(* =============================================================== *)
(** * Output format *)

Definition NL : str := [10].

(** The truth value of a list. *)
Definition truthy {A : Type} (l : list A) : bool :=
  match l with [] => false | _ :: _ => true end.

(** [f"{i}"] for the number [i] of an item.  A list has fewer than 2^63
    items, so the number has 19 digits at most, and the interpreter checks
    no number of 640 digits or fewer: this conversion is never refused. *)
Definition of_index (i : Z) : str := decimal i.

(** [enumerate(l, start)] *)
Fixpoint enumerate {A : Type} (start : Z) (l : list A) : list (Z * A) :=
  match l with
  | [] => []
  | x :: r => (start, x) :: enumerate (start + 1) r
  end.

Definition format_output (discussions : list str) (quiz : Quiz)
           (show_discussion show_tf show_blank : bool) : str :=
  let out := [] in
  let out :=
    if show_discussion && truthy discussions then
      let out := out ++ lit "### 토론 주제" ++ NL in
      let out :=
        fold_left
          (fun out it => out ++ of_index (fst it) ++ lit ") " ++ snd it ++ NL)
          (enumerate 1 discussions) out in
      out ++ NL
    else out in
  let out :=
    if show_tf && truthy (tf quiz) then
      let out := out ++ lit "### OX 문제" ++ NL in
      let out :=
        fold_left
          (fun out it =>
             let q := snd it in
             let out :=
               out ++ of_index (fst it) ++ lit ") " ++ tf_statement q ++ NL in
             let out :=
               out ++ lit "   정답: "
                   ++ (if tf_answer q then lit "O(참)" else lit "X(거짓)")
                   ++ NL in
             out ++ lit "   해설: " ++ tf_explanation q ++ NL)
          (enumerate 1 (tf quiz)) out in
      out ++ NL
    else out in
  let out :=
    if show_blank && truthy (blank quiz) then
      let out := out ++ lit "### 빈칸 채우기" ++ NL in
      let out :=
        fold_left
          (fun out it =>
             let q := snd it in
             let out :=
               out ++ of_index (fst it) ++ lit ") " ++ blank_question q ++ NL in
             out ++ lit "   정답: " ++ blank_answer q ++ NL)
          (enumerate 1 (blank quiz)) out in
      out ++ NL
    else out in
  out.

(* =============================================================== *)
(** * Entry point *)

(** [generate_all(text, types, num_discussion, num_tf, num_blank)];
    [fresh] is the state of the source that [generate_quiz] makes.  The
    quiz is made whatever the categories are; [None] when making it
    raises. *)
Definition generate_all (fresh : R) (text : str) (types : list str)
           (num_discussion num_tf num_blank : Z) : option str :=
  let show_discussion := mem (lit "토론 주제") types in
  let show_tf := mem (lit "OX 문제") types in
  let show_blank := mem (lit "빈칸 문제") types in
  let discussions :=
    if show_discussion then generate_discussion_topics text num_discussion
    else [] in
  match generate_quiz fresh text num_tf num_blank with
  | None => None
  | Some quiz =>
    Some (format_output discussions quiz show_discussion show_tf show_blank)
  end.

End Generators.

(* ================================================================= *)
(** * The vocabulary of the properties *)

(** The character after a greedy run does not belong to the class. *)
Definition stops (p : char -> bool) (r : str) : Prop :=
  match r with [] => True | c :: _ => p c = false end.

(** A pattern is productive when a match is a non-empty prefix of the
    text, followed by the rest. *)
Definition productive (pat : str -> option (str * str)) : Prop :=
  forall s t r, pat s = Some (t, r) -> s = t ++ r /\ t <> [].

(** Matching the pattern on one of its own matches gives the whole of
    it. *)
Definition self_matching (pat : str -> option (str * str)) : Prop :=
  forall s t r, pat s = Some (t, r) -> pat t = Some (t, []).

Definition head_in (p : char -> bool) (t : str) : Prop :=
  match t with [] => False | c :: _ => p c = true end.

(** The candidates of a sentence, as [make_fill_in_blank] computes them. *)
Definition candidates_of (sent : str) : list str :=
  let toks := tokenize sent in
  let candidates :=
    filter (fun t => (2 <=? len t) && negb (mem t STOPWORDS)) toks in
  match candidates, toks with
  | [], t0 :: ts => [max_by_len t0 ts]
  | _, _ => candidates
  end.

(** Strings without the character of the marker. *)
Definition no_underscore (s : str) : Prop := ~ In 95 s.

(** The round trip of a fill-in-the-blank question made from [sent]: the
    question has one blank marker, and putting the answer in the place of
    the first marker gives the sentence back. *)
Definition blank_round_trip (sent : str) : Prop :=
  forall scored q a,
    make_fill_in_blank sent scored = Some (q, a) ->
    length (occurrences BLANK q) = 1%nat /\ replace_first BLANK a q = sent.

(** Equality of strings is decidable. *)
Definition str_eq_dec : forall a b : str, {a = b} + {a <> b} :=
  list_eq_dec Z.eq_dec.

(** The number of times [t] occurs in [l]. *)
Definition frequency (t : str) (l : list str) : Z :=
  Z.of_nat (length (filter (eqb t) l)).

(** The order of the result: scores do not increase. *)
Definition score_desc (a b : str * Q) : Prop := (snd b <= snd a)%Q.

(** The text cut at its tokens: a gap, a token, a gap, ..., a gap. *)
Fixpoint weave (gaps tokens : list str) : str :=
  match gaps, tokens with
  | g :: gs, t :: ts => g ++ t ++ weave gs ts
  | g :: _, [] => g
  | [], _ => []
  end.

(** The distinct elements of [l] that are not in [seen], in the order of
    their first occurrence. *)
Fixpoint first_occurrences (seen l : list str) : list str :=
  match l with
  | [] => []
  | t :: r =>
    if mem t seen then first_occurrences seen r
    else t :: first_occurrences (t :: seen) r
  end.

(** A run of characters of the class [p], or two of them with the
    separator between. *)
Definition run_shape (p : char -> bool) (sep : char) (t : str) : Prop :=
  (t <> [] /\ forallb p t = true)
  \/ exists a b,
      t = a ++ sep :: b
      /\ a <> [] /\ b <> []
      /\ forallb p a = true /\ forallb p b = true.

(** A token that can be blanked out without the fallback: two characters
    at least and not a stop word, as written. *)
Definition eligible (t : str) : bool :=
  (2 <=? len t) && negb (mem t STOPWORDS).

(** A character that no token contains. *)
Definition separator (c : char) : bool :=
  negb (is_alpha c || is_digit c || is_hangul c || (c =? 39) || (c =? 46)).

(** The match of a pattern at the start of [a] is its match at the start
    of [a] followed by [c] and [b]. *)
Definition carries (pat : str -> option (str * str)) (c : char) : Prop :=
  forall a b,
    pat (a ++ c :: b)
    = match pat a with
      | Some (t, r) => Some (t, r ++ c :: b)
      | None => None
      end.

(** The white space of [s] is made of plain spaces that do not follow one
    another; [after_space] tells that a space stands before [s]. *)
Fixpoint single_spaced (after_space : bool) (s : str) : bool :=
  match s with
  | [] => true
  | c :: r =>
    if isspace c
    then (c =? 32) && negb after_space && single_spaced true r
    else single_spaced false r
  end.

(** No white space of [s] follows the end of a sentence; [prev] is the
    character before [s]. *)
Fixpoint unbroken (prev : option char) (s : str) : bool :=
  match s with
  | [] => true
  | c :: r => negb (isspace c && sentence_end prev) && unbroken (Some c) r
  end.

(** The section of the discussion topics, of the true/false items and of
    the fill-in-the-blank items, as [format_output] writes them. *)
Definition discussion_section (discussions : list str) : str :=
  lit "### 토론 주제" ++ NL
  ++ concat (map (fun it => of_index (fst it) ++ lit ") " ++ snd it ++ NL)
                 (enumerate 1 discussions))
  ++ NL.

Definition tf_section (items : list TrueFalse) : str :=
  lit "### OX 문제" ++ NL
  ++ concat (map (fun it =>
                    (of_index (fst it) ++ lit ") " ++ tf_statement (snd it) ++ NL)
                    ++ (lit "   정답: "
                        ++ (if tf_answer (snd it)
                            then lit "O(참)" else lit "X(거짓)")
                        ++ NL)
                    ++ lit "   해설: " ++ tf_explanation (snd it) ++ NL)
                 (enumerate 1 items))
  ++ NL.

Definition blank_section (items : list FillBlank) : str :=
  lit "### 빈칸 채우기" ++ NL
  ++ concat (map (fun it =>
                    (of_index (fst it) ++ lit ") " ++ blank_question (snd it)
                          ++ NL)
                    ++ lit "   정답: " ++ blank_answer (snd it) ++ NL)
                 (enumerate 1 items))
  ++ NL.

(** A call that answers false: "It was 5 years old." with a source whose
    first draw is below 0.6. *)
Definition tf_sample : option ((str * bool * str) * Tape) :=
  make_true_false (IL := default_limit) (DT := ascii_decimals)
                  (lit "It was 5 years old.") [] [0; 0; 2].

(** The quiz of a call that asks for three items of each kind, with the
    default limit, the ASCII digits and a tape for the source; the empty
    quiz stands for no quiz. *)
Definition sample_quiz (tape : Tape) (text : str) : Quiz :=
  match generate_quiz (IL := default_limit) (DT := ascii_decimals)
                      (RS := tape_source) tape text 3 3 with
  | Some quiz => quiz
  | None => {| tf := []; blank := [] |}
  end.

(** A sentence that is a number of 4301 digits. *)
Definition long_number : str := repeat 57 4301 ++ lit ".".

Section QuizVocabulary.

Context {IL : IntLimit} {DT : DecimalTable}.
Context {R : Type} {RS : RandomSource R}.

(** The rounds of the loop on the sentences [visited], one after the
    other, without the test that leaves the loop. *)
Fixpoint rounds (num_tf num_blank : Z) (scored : list (str * Q))
         (visited : list str) (w : Walk (R := R)) : option Walk :=
  match visited with
  | [] => Some w
  | s :: more =>
    match quiz_round num_tf num_blank scored s w with
    | None => None
    | Some w' => rounds num_tf num_blank scored more w'
    end
  end.

(** Both quotas are met. *)
Definition quotas_met (num_tf num_blank : Z) (w : Walk (R := R)) : Prop :=
  num_tf <= Z.of_nat (length (tf_list w))
  /\ num_blank <= Z.of_nat (length (blank_list w)).

(** Every digit run of the sentence is shorter than the limit of the
    interpreter: its number can be read, and a number greater by ten at
    most can be written. *)
Definition numbers_fit (s : str) : Prop :=
  Forall (fun n => exceeds_limit (len n + 1) = false) (findall_digits s).

(** What C4 says of the quiz that a call of [generate_quiz] returns. *)
Definition quiz_quotas_hold (fresh : R) (text : str) (num_tf num_blank : Z)
           (quiz : Quiz) : Prop :=
  let sents := split_sentences text in
  let scored := score_tokens text sents in
  let start := {| tf_list := []; blank_list := []; rnd_state := fresh |} in
  Z.of_nat (length (tf quiz)) <= num_tf
  /\ Z.of_nat (length (blank quiz)) <= num_blank
  /\ Z.of_nat (length (tf quiz)) = Z.min num_tf (Z.of_nat (length sents))
  /\ exists visited rest w',
      sents = visited ++ rest
      /\ quiz_walk num_tf num_blank scored sents start = Some (w', rest)
      /\ rounds num_tf num_blank scored visited start = Some w'
      /\ (rest = [] \/ quotas_met num_tf num_blank w')
      /\ (forall p p' wp,
             visited = p ++ p' -> p <> [] -> p' <> [] ->
             rounds num_tf num_blank scored p start = Some wp ->
             ~ quotas_met num_tf num_blank wp).

(** C4 as it is stated: the call returns a quiz, of which the above
    holds. *)
Definition quiz_quotas_stated (fresh : R) (text : str)
           (num_tf num_blank : Z) : Prop :=
  exists quiz,
    generate_quiz fresh text num_tf num_blank = Some quiz
    /\ quiz_quotas_hold fresh text num_tf num_blank quiz.

(** The item [item] is what [make_true_false] returns for the sentence
    [s], for some state of the source. *)
Definition tf_made_from (scored : list (str * Q)) (s : str)
           (item : TrueFalse) : Prop :=
  exists rnd rnd' : R,
    make_true_false s scored rnd
    = Some ((tf_statement item, tf_answer item, tf_explanation item), rnd').

End QuizVocabulary.

Section SourcesVocabulary.

Context {R1 R2 : Type} {RS1 : RandomSource R1} {RS2 : RandomSource R2}.

(** Two sources in states that [sim] relates give the same draws, and are
    in related states afterwards. *)
Definition same_draws (sim : R1 -> R2 -> Prop) : Prop :=
  (forall r1 r2, sim r1 r2 ->
     fst (random53 r1) = fst (random53 r2)
     /\ sim (snd (random53 r1)) (snd (random53 r2)))
  /\ (forall n r1 r2, sim r1 r2 ->
        fst (randbelow n r1) = fst (randbelow n r2)
        /\ sim (snd (randbelow n r1)) (snd (randbelow n r2))).

(** Two results that are both errors, or both values that [P] relates. *)
Definition option_rel {A B : Type} (P : A -> B -> Prop)
           (x : option A) (y : option B) : Prop :=
  match x, y with
  | Some a, Some b => P a b
  | None, None => True
  | _, _ => False
  end.

Definition walk_sim (sim : R1 -> R2 -> Prop)
           (w1 : Walk (R := R1)) (w2 : Walk (R := R2)) : Prop :=
  tf_list w1 = tf_list w2
  /\ blank_list w1 = blank_list w2
  /\ sim (rnd_state w1) (rnd_state w2).

(** Two states of the loop with the same fill-in-the-blank items and as
    many true/false items. *)
Definition walk_shape (w1 : Walk (R := R1)) (w2 : Walk (R := R2)) : Prop :=
  length (tf_list w1) = length (tf_list w2)
  /\ blank_list w1 = blank_list w2.

End SourcesVocabulary.

(* ================================================================= *)
(** * Facts about strings *)

Module StrFacts.

Lemma eqb_eq (a b : str) : Str.eqb a b = true <-> a = b.
Proof.
  revert b; induction a as [|x a IH]; intros [|y b]; simpl;
    try (split; [discriminate | discriminate]); try tauto.
  rewrite andb_true_iff, Z.eqb_eq, IH.
  split; [intros [-> ->]; reflexivity | intros H; inversion H; auto].
Qed.

Lemma eqb_refl (a : str) : Str.eqb a a = true.
Proof. apply eqb_eq; reflexivity. Qed.

Lemma mem_In (x : str) (l : list str) : mem x l = true <-> In x l.
Proof.
  unfold mem. rewrite existsb_exists. split.
  - intros [y [Hy He]]. apply eqb_eq in He. subst; assumption.
  - intros H. exists x. split; [assumption | apply eqb_refl].
Qed.

Lemma startswith_iff (p s : str) :
  startswith p s = true <-> exists r, s = p ++ r.
Proof.
  revert s; induction p as [|x p IH]; intros s; simpl.
  - split; [intros _; exists s; reflexivity | reflexivity].
  - destruct s as [|y s].
    + split; [discriminate | intros [r Hr]; discriminate].
    + rewrite andb_true_iff, Z.eqb_eq, IH. split.
      * intros [-> [r ->]]. exists r; reflexivity.
      * intros [r Hr]. inversion Hr; subst. split; [reflexivity | eauto].
Qed.

Lemma startswith_app (p r : str) : startswith p (p ++ r) = true.
Proof. apply startswith_iff. exists r; reflexivity. Qed.

Lemma skipn_length_app (p r : str) : skipn (length p) (p ++ r) = r.
Proof. induction p; simpl; auto. Qed.

(** What [find] returns is the first place where [p] occurs, and
    [replace_first] rewrites that place. *)
Lemma find_Some (p s : str) (i : nat) :
  find p s = Some i ->
  exists pre post,
    s = pre ++ p ++ post /\ length pre = i
    /\ forall new, replace_first p new s = pre ++ new ++ post.
Proof.
  revert i; induction s as [|c s IH]; intros i; simpl.
  - destruct (startswith p []) eqn:E; [|discriminate].
    intros H; inversion H; subst.
    apply startswith_iff in E. destruct E as [r Hr].
    exists [], r. repeat split; auto.
    intros new. rewrite Hr at 1.
    destruct p; simpl in *; [subst; reflexivity | discriminate].
  - destruct (startswith p (c :: s)) eqn:E.
    + intros H; inversion H; subst.
      apply startswith_iff in E. destruct E as [r Hr].
      exists [], r. repeat split; auto.
      intros new. simpl. rewrite Hr, skipn_length_app. reflexivity.
    + destruct (find p s) as [j|] eqn:F; simpl; [|discriminate].
      intros H; inversion H; subst.
      destruct (IH j eq_refl) as [pre [post [Hs [Hl Hr]]]].
      exists (c :: pre), post. repeat split.
      * simpl. rewrite <- Hs. reflexivity.
      * simpl. rewrite Hl. reflexivity.
      * intros new. simpl. rewrite Hr. reflexivity.
Qed.

Lemma find_startswith (p s : str) :
  startswith p s = true -> find p s = Some 0%nat.
Proof. intros H. destruct s; simpl; rewrite H; reflexivity. Qed.

(** A substring is found. *)
Lemma find_substring (p pre post : str) :
  exists i, find p (pre ++ p ++ post) = Some i.
Proof.
  induction pre as [|c pre IH]; simpl.
  - exists 0%nat. apply find_startswith, startswith_app.
  - destruct (startswith p (c :: pre ++ p ++ post)); [eauto|].
    destruct IH as [i ->]. simpl. eauto.
Qed.

Lemma contains_substring (p pre post : str) :
  contains p (pre ++ p ++ post) = true.
Proof.
  unfold contains. destruct (find_substring p pre post) as [i ->].
  reflexivity.
Qed.

Lemma contains_split (p s : str) :
  contains p s = true ->
  exists pre post,
    s = pre ++ p ++ post
    /\ forall new, replace_first p new s = pre ++ new ++ post.
Proof.
  unfold contains. destruct (find p s) as [i|] eqn:F; [|discriminate].
  intros _. destruct (find_Some _ _ _ F) as [pre [post [H1 [_ H2]]]].
  eauto.
Qed.

End StrFacts.

(* ================================================================= *)
(** * Facts about the tokenizer *)

Module TokenFacts.

Lemma span_spec p s a r :
  span p s = (a, r) -> s = a ++ r /\ forallb p a = true /\ stops p r.
Proof.
  revert a r; induction s as [|c s IH]; intros a r; simpl.
  - intros H; inversion H; subst; simpl; auto.
  - destruct (p c) eqn:Pc.
    + destruct (span p s) as [a' b'] eqn:E.
      intros H; inversion H; subst.
      destruct (IH a' r eq_refl) as [-> [Ha Hr]].
      simpl. rewrite Pc, Ha. auto.
    + intros H; inversion H; subst. simpl. auto.
Qed.

Lemma span_app p a r :
  forallb p a = true -> stops p r -> span p (a ++ r) = (a, r).
Proof.
  induction a as [|c a IH]; simpl; intros Ha Hr.
  - destruct r as [|c r]; simpl in *; [reflexivity | rewrite Hr; reflexivity].
  - apply andb_true_iff in Ha. destruct Ha as [Pc Ha].
    rewrite Pc, (IH Ha Hr). reflexivity.
Qed.

Lemma match_run_spec p s t r :
  match_run p s = Some (t, r) ->
  s = t ++ r /\ head_in p t /\ match_run p t = Some (t, []).
Proof.
  unfold match_run. destruct (span p s) as [a b] eqn:E.
  destruct a as [|c a]; [discriminate|].
  intros H; inversion H; subst.
  destruct (span_spec _ _ _ _ E) as [Hs [Ha Hr]].
  split; [assumption|]. simpl in Ha.
  apply andb_true_iff in Ha. destruct Ha as [Pc Ha].
  split; [exact Pc|].
  pose proof (span_app p (c :: a) [] ) as S0.
  rewrite app_nil_r in S0. rewrite S0; simpl; auto.
  rewrite Pc, Ha; reflexivity.
Qed.

Lemma match_run_None p s : match_run p s = None <-> stops p s.
Proof.
  unfold match_run, stops. destruct s as [|c s]; simpl; [tauto|].
  destruct (p c) eqn:Pc.
  - destruct (span p s); split; discriminate.
  - tauto.
Qed.

Lemma match_run_opt_None p sep s :
  match_run_opt p sep s = None <-> stops p s.
Proof.
  unfold match_run_opt, stops. destruct s as [|c s]; simpl; [tauto|].
  destruct (p c) eqn:Pc; [|tauto].
  destruct (span p s) as [a r].
  split; [|discriminate].
  destruct r as [|d r']; [discriminate|].
  destruct (d =? sep); [|discriminate].
  destruct (span p r') as [[|e b] r'']; discriminate.
Qed.

Lemma match_run_opt_plain p sep c a :
  forallb p (c :: a) = true ->
  match_run_opt p sep (c :: a) = Some (c :: a, []).
Proof.
  intros Ha. unfold match_run_opt.
  pose proof (span_app p (c :: a) [] Ha I) as S0.
  rewrite app_nil_r in S0. rewrite S0. reflexivity.
Qed.

Lemma match_run_opt_sep p sep c a e g :
  p sep = false ->
  forallb p (c :: a) = true -> forallb p (e :: g) = true ->
  match_run_opt p sep ((c :: a) ++ sep :: e :: g)
  = Some ((c :: a) ++ sep :: e :: g, []).
Proof.
  intros Hsep Ha Hg.
  assert (S1 : span p ((c :: a) ++ sep :: e :: g)
               = (c :: a, sep :: e :: g))
    by (apply span_app; [exact Ha | exact Hsep]).
  pose proof (span_app p (e :: g) [] Hg I) as S2.
  rewrite app_nil_r in S2.
  unfold match_run_opt. rewrite S1, Z.eqb_refl, S2. reflexivity.
Qed.

Lemma match_run_opt_spec p sep s t r :
  p sep = false ->
  match_run_opt p sep s = Some (t, r) ->
  s = t ++ r /\ head_in p t /\ match_run_opt p sep t = Some (t, []).
Proof.
  intros Hsep. unfold match_run_opt at 1.
  destruct (span p s) as [a b] eqn:E.
  destruct (span_spec _ _ _ _ E) as [Hs [Ha Hb]].
  destruct a as [|c a]; [discriminate|].
  assert (Pc : p c = true)
    by (simpl in Ha; apply andb_true_iff in Ha; tauto).
  assert (Plain : forall r0, Some (c :: a, b) = Some (t, r0) ->
            s = t ++ r0 /\ head_in p t
            /\ match_run_opt p sep t = Some (t, [])).
  { intros r0 H; inversion H; subst t r0.
    split; [exact Hs|]. split; [exact Pc|].
    apply match_run_opt_plain; exact Ha. }
  destruct b as [|d b'].
  - intros H. exact (Plain _ H).
  - destruct (d =? sep) eqn:D.
    + apply Z.eqb_eq in D. subst d.
      destruct (span p b') as [g r''] eqn:E2.
      destruct (span_spec _ _ _ _ E2) as [Hs2 [Hg Hr2]].
      destruct g as [|e g].
      * intros H. exact (Plain _ H).
      * intros H; inversion H; subst t r.
        split; [rewrite Hs, Hs2; simpl; rewrite <- app_assoc; reflexivity|].
        split; [exact Pc|].
        apply (match_run_opt_sep p sep c a e g Hsep Ha Hg).
    + intros H. exact (Plain _ H).
Qed.

Lemma head_in_nonempty p t : head_in p t -> t <> [].
Proof. destruct t; simpl; [tauto | discriminate]. Qed.

Lemma stops_prefix p t r : t <> [] -> stops p (t ++ r) -> stops p t.
Proof. destruct t; simpl; [congruence | auto]. Qed.

Lemma alpha_not_sep : is_alpha 39 = false.
Proof. reflexivity. Qed.

Lemma digit_not_sep : is_digit 46 = false.
Proof. reflexivity. Qed.

(** What [WORD_PATTERN] matches: a non-empty prefix, which the pattern
    matches again as a whole. *)
Lemma WORD_PATTERN_spec s t r :
  WORD_PATTERN s = Some (t, r) ->
  s = t ++ r /\ t <> [] /\ WORD_PATTERN t = Some (t, []).
Proof.
  unfold WORD_PATTERN.
  destruct (match_run_opt is_alpha 39 s) as [[t1 r1]|] eqn:A.
  - intros H; inversion H; subst.
    destruct (match_run_opt_spec _ _ _ _ _ alpha_not_sep A) as [Hs [Hh Hm]].
    rewrite Hm. split; [assumption|].
    split; [eapply head_in_nonempty; eassumption | reflexivity].
  - apply match_run_opt_None in A.
    destruct (match_run_opt is_digit 46 s) as [[t2 r2]|] eqn:D.
    + intros H; inversion H; subst.
      destruct (match_run_opt_spec _ _ _ _ _ digit_not_sep D)
        as [Hs [Hh Hm]].
      pose proof (head_in_nonempty _ _ Hh) as Hne.
      assert (A' : match_run_opt is_alpha 39 t = None).
      { apply match_run_opt_None. rewrite Hs in A.
        eapply stops_prefix; eassumption. }
      rewrite A', Hm. auto.
    + apply match_run_opt_None in D. intros H.
      destruct (match_run_spec _ _ _ _ H) as [Hs [Hh Hm]].
      pose proof (head_in_nonempty _ _ Hh) as Hne.
      assert (A' : match_run_opt is_alpha 39 t = None).
      { apply match_run_opt_None. rewrite Hs in A.
        eapply stops_prefix; eassumption. }
      assert (D' : match_run_opt is_digit 46 t = None).
      { apply match_run_opt_None. rewrite Hs in D.
        eapply stops_prefix; eassumption. }
      rewrite A', D', Hm. auto.
Qed.

Lemma WORD_PATTERN_productive : productive WORD_PATTERN.
Proof.
  intros s t r H. destruct (WORD_PATTERN_spec _ _ _ H) as [H1 [H2 _]]. auto.
Qed.

Lemma WORD_PATTERN_self : self_matching WORD_PATTERN.
Proof.
  intros s t r H. destruct (WORD_PATTERN_spec _ _ _ H) as [_ [_ H3]]. auto.
Qed.

End TokenFacts.

(** [finditer] for a productive pattern. *)
Section Finditer.

Variable pat : str -> option (str * str).
Hypothesis Hprod : productive pat.

Lemma finditer_nil fuel : finditer pat fuel [] = [].
Proof. destruct fuel; reflexivity. Qed.

(** The scan does not depend on the fuel, once there is enough of it. *)
Lemma finditer_enough :
  forall n fuel1 fuel2 s,
    (length s <= n)%nat -> (length s <= fuel1)%nat ->
    (length s <= fuel2)%nat ->
    finditer pat fuel1 s = finditer pat fuel2 s.
Proof.
  induction n as [|n IH]; intros fuel1 fuel2 s Hn H1 H2.
  - destruct s; [|simpl in Hn; lia]. rewrite !finditer_nil. reflexivity.
  - destruct s as [|c s]; [rewrite !finditer_nil; reflexivity|].
    destruct fuel1 as [|f1]; [simpl in H1; lia|].
    destruct fuel2 as [|f2]; [simpl in H2; lia|].
    simpl in *. destruct (pat (c :: s)) as [[t rest]|] eqn:P.
    + destruct (Hprod _ _ _ P) as [Hs Ht].
      assert (L : (length rest <= length s)%nat).
      { apply (f_equal (@length _)) in Hs. rewrite length_app in Hs.
        simpl in Hs. destruct t; [congruence | simpl in Hs; lia]. }
      f_equal. apply IH; lia.
    + apply IH; lia.
Qed.

Lemma finditer_fuel fuel s :
  (length s <= fuel)%nat -> finditer pat fuel s = finditer pat (length s) s.
Proof. intros H. apply (finditer_enough (length s)); lia. Qed.

(** Every match that is found is a match of the pattern at some place of
    the text. *)
Lemma finditer_In :
  forall fuel s t,
    In t (finditer pat fuel s) ->
    exists pre s' r, s = pre ++ s' /\ pat s' = Some (t, r).
Proof.
  induction fuel as [|f IH]; intros s t; simpl; [tauto|].
  destruct s as [|c s]; [simpl; tauto|].
  destruct (pat (c :: s)) as [[t0 rest]|] eqn:P.
  - intros [<- | H].
    + exists [], (c :: s), rest. auto.
    + destruct (IH _ _ H) as [pre [s' [r [Hs Hp]]]].
      destruct (Hprod _ _ _ P) as [Hcs _].
      exists (t0 ++ pre), s', r. split; [|assumption].
      rewrite Hcs, Hs, app_assoc. reflexivity.
  - intros H. destruct (IH _ _ H) as [pre [s' [r [Hs Hp]]]].
    exists (c :: pre), s', r. split; [|assumption].
    simpl. rewrite Hs. reflexivity.
Qed.

(** A match is a non-empty substring of the text. *)
Lemma finditer_substring fuel s t :
  In t (finditer pat fuel s) ->
  t <> [] /\ exists pre post, s = pre ++ t ++ post.
Proof.
  intros H. destruct (finditer_In _ _ _ H) as [pre [s' [r [Hs Hp]]]].
  destruct (Hprod _ _ _ Hp) as [Hs' Ht]. split; [assumption|].
  exists pre, r. rewrite Hs, Hs'. reflexivity.
Qed.

End Finditer.

Lemma tokenize_substring (s t : str) :
  In t (tokenize s) -> t <> [] /\ exists pre post, s = pre ++ t ++ post.
Proof.
  apply finditer_substring. exact TokenFacts.WORD_PATTERN_productive.
Qed.

Lemma tokenize_token (s t : str) : In t (tokenize s) -> tokenize t = [t].
Proof.
  intros H.
  destruct (finditer_In _ TokenFacts.WORD_PATTERN_productive _ _ _ H)
    as [pre [s' [r [_ Hp]]]].
  destruct (TokenFacts.WORD_PATTERN_spec _ _ _ Hp) as [_ [Hne Hself]].
  unfold tokenize. destruct t as [|c t]; [congruence|].
  simpl length. cbn [finditer]. rewrite Hself, finditer_nil. reflexivity.
Qed.

Lemma flat_map_singletons {A : Type} (f : A -> list A) (l : list A) :
  (forall x, In x l -> f x = [x]) -> flat_map f l = l.
Proof.
  induction l as [|x l IH]; simpl; intros H; [reflexivity|].
  rewrite (H x (or_introl eq_refl)), IH; [reflexivity|].
  intros y Hy. apply H. right; assumption.
Qed.

(* ================================================================= *)
(** * Tokenisation *)

(** C9: tokenising is idempotent.  Every token that [tokenize] emits is one
    whole match of the pattern and is tokenised into itself alone, so
    tokenising each token of [tokenize s] and concatenating the results in
    order gives [tokenize s] back. *)
Theorem tokenize_idempotent (s : str) :
  (forall t, In t (tokenize s) ->
             WORD_PATTERN t = Some (t, []) /\ tokenize t = [t])
  /\ flat_map tokenize (tokenize s) = tokenize s.
Proof.
  split.
  - intros t H. split; [|apply (tokenize_token s); exact H].
    destruct (finditer_In _ TokenFacts.WORD_PATTERN_productive _ _ _ H)
      as [pre [s' [r [_ Hp]]]].
    apply (TokenFacts.WORD_PATTERN_spec _ _ _ Hp).
  - apply flat_map_singletons. intros t. apply tokenize_token.
Qed.

(* ================================================================= *)
(** * Fill in the blank *)

Lemma max_by_len_In (t0 : str) (ts : list str) :
  In (max_by_len t0 ts) (t0 :: ts).
Proof.
  unfold max_by_len. revert t0.
  induction ts as [|t ts IH]; intros t0; simpl; [auto|].
  destruct (len t0 <? len t).
  - right. apply IH.
  - destruct (IH t0) as [H | H]; [left; exact H | right; right; exact H].
Qed.

Lemma make_fill_in_blank_candidates sent scored :
  make_fill_in_blank sent scored = first_target sent (candidates_of sent).
Proof. reflexivity. Qed.

Lemma candidates_of_tokens sent t :
  In t (candidates_of sent) -> In t (tokenize sent).
Proof.
  unfold candidates_of.
  destruct (filter _ (tokenize sent)) as [|c cs] eqn:F.
  - destruct (tokenize sent) as [|t0 ts]; [simpl; tauto|].
    intros [<- | []]. apply max_by_len_In.
  - intros H. rewrite <- F in H. apply filter_In in H. tauto.
Qed.

Lemma candidates_of_nil sent :
  candidates_of sent = [] <-> tokenize sent = [].
Proof.
  unfold candidates_of. split.
  - destruct (filter _ (tokenize sent)) as [|c cs] eqn:F.
    + destruct (tokenize sent); [reflexivity | discriminate].
    + discriminate.
  - intros ->. reflexivity.
Qed.

(** The loop over the candidates: what it returns is made from an
    occurrence of a candidate, the first one of that candidate. *)
Lemma first_target_Some sent cands q a :
  first_target sent cands = Some (q, a) ->
  In a cands
  /\ exists pre post, sent = pre ++ a ++ post /\ q = pre ++ BLANK ++ post.
Proof.
  induction cands as [|c cands IH]; simpl; [discriminate|].
  destruct (contains c sent) eqn:C.
  - intros H; inversion H; subst.
    destruct (StrFacts.contains_split _ _ C) as [pre [post [Hs Hr]]].
    split; [auto|]. exists pre, post. auto.
  - intros H. destruct (IH H) as [Hin Hex]. auto.
Qed.

Lemma first_target_None sent cands :
  first_target sent cands = None ->
  forall c, In c cands -> contains c sent = false.
Proof.
  induction cands as [|c cands IH]; simpl; [tauto|].
  destruct (contains c sent) eqn:C; [discriminate|].
  intros H d [<- | Hd]; auto.
Qed.

Lemma make_fill_in_blank_Some sent scored q a :
  make_fill_in_blank sent scored = Some (q, a) ->
  In a (tokenize sent)
  /\ exists pre post, sent = pre ++ a ++ post /\ q = pre ++ BLANK ++ post.
Proof.
  rewrite make_fill_in_blank_candidates. intros H.
  destruct (first_target_Some _ _ _ _ H) as [Hin Hex].
  split; [apply candidates_of_tokens; assumption | assumption].
Qed.

Lemma make_fill_in_blank_None sent scored :
  make_fill_in_blank sent scored = None <-> tokenize sent = [].
Proof.
  rewrite make_fill_in_blank_candidates. split.
  - intros H. apply candidates_of_nil.
    destruct (candidates_of sent) as [|c cs] eqn:E; [reflexivity|].
    exfalso.
    assert (Hc : In c (candidates_of sent)) by (rewrite E; left; reflexivity).
    pose proof (candidates_of_tokens _ _ Hc) as Ht.
    destruct (tokenize_substring _ _ Ht) as [_ [pre [post Hs]]].
    rewrite <- E in H.
    pose proof (first_target_None _ _ H c Hc) as Hn.
    rewrite Hs in Hn. rewrite StrFacts.contains_substring in Hn.
    discriminate.
  - intros H. apply candidates_of_nil in H. rewrite H. reflexivity.
Qed.

Lemma BLANK_eq : BLANK = [95; 95; 95; 95].
Proof. reflexivity. Qed.

Lemma BLANK_nonempty pre post : pre ++ BLANK ++ post <> [].
Proof. rewrite BLANK_eq. destruct pre; discriminate. Qed.

Lemma no_underscore_cons (c : char) (s : str) :
  no_underscore (c :: s) -> c <> 95 /\ no_underscore s.
Proof. unfold no_underscore; simpl. intros H. split; intros E; auto. Qed.

Lemma no_underscore_app (a b : str) :
  no_underscore (a ++ b) -> no_underscore a /\ no_underscore b.
Proof.
  unfold no_underscore. intros H.
  split; intros E; apply H, in_or_app; auto.
Qed.

Lemma startswith_head_neq (x : char) (p : str) (c : char) (s : str) :
  x <> c -> startswith (x :: p) (c :: s) = false.
Proof.
  intros H. cbn [startswith]. apply Z.eqb_neq in H. rewrite H. reflexivity.
Qed.

Lemma startswith_head_eq (x : char) (p s : str) :
  startswith (x :: p) (x :: s) = startswith p s.
Proof. cbn [startswith]. rewrite Z.eqb_refl. reflexivity. Qed.

Lemma startswith_BLANK_cons (c : char) (s : str) :
  c <> 95 -> startswith BLANK (c :: s) = false.
Proof.
  intros H. rewrite BLANK_eq. apply startswith_head_neq. congruence.
Qed.

Lemma occurrences_cons (p : str) (c : char) (s : str) :
  occurrences p (c :: s)
  = (if startswith p (c :: s) then [0%nat] else []) ++ map S (occurrences p s).
Proof. reflexivity. Qed.

Lemma occurrences_none (s : str) : no_underscore s -> occurrences BLANK s = [].
Proof.
  induction s as [|c s IH]; intros H; [reflexivity|].
  apply no_underscore_cons in H. destruct H as [Hc Hs].
  rewrite occurrences_cons, (startswith_BLANK_cons c s Hc), (IH Hs).
  reflexivity.
Qed.

Lemma occurrences_skip (pre r : str) :
  no_underscore pre ->
  occurrences BLANK (pre ++ r)
  = map (Nat.add (length pre)) (occurrences BLANK r).
Proof.
  induction pre as [|c pre IH]; intros H.
  - simpl. rewrite map_id. reflexivity.
  - apply no_underscore_cons in H. destruct H as [Hc Hs].
    change ((c :: pre) ++ r) with (c :: (pre ++ r)).
    rewrite occurrences_cons, (startswith_BLANK_cons _ _ Hc), (IH Hs).
    simpl. rewrite map_map. reflexivity.
Qed.

(** A run of underscores shorter than the pattern, followed by a string
    without underscores, does not start with the pattern. *)
Lemma startswith_run (m n : nat) (post : str) :
  no_underscore post -> (m < n)%nat ->
  startswith (repeat 95 n) (repeat 95 m ++ post) = false.
Proof.
  intros Hp. revert n. induction m as [|m IH]; intros n Hn.
  - destruct n as [|n]; [lia|]. simpl repeat. simpl app.
    destruct post as [|c post]; [reflexivity|].
    apply no_underscore_cons in Hp. destruct Hp as [Hc _].
    apply startswith_head_neq. congruence.
  - destruct n as [|n]; [lia|].
    change (repeat 95 (S n)) with (95 :: repeat 95 n).
    change (repeat 95 (S m) ++ post) with (95 :: (repeat 95 m ++ post)).
    rewrite startswith_head_eq. apply IH. lia.
Qed.

Lemma occurrences_marker (post : str) :
  no_underscore post -> occurrences BLANK (BLANK ++ post) = [0%nat].
Proof.
  intros H. pose proof (occurrences_none post H) as Hp.
  assert (E : occurrences BLANK (BLANK ++ post)
              = (if startswith BLANK (BLANK ++ post) then [0%nat] else [])
                ++ map S
                ((if startswith (repeat 95 4) (repeat 95 3 ++ post)
                  then [0%nat] else [])
                 ++ map S
                 ((if startswith (repeat 95 4) (repeat 95 2 ++ post)
                   then [0%nat] else [])
                  ++ map S
                  ((if startswith (repeat 95 4) (repeat 95 1 ++ post)
                    then [0%nat] else [])
                   ++ map S (occurrences BLANK post)))))
    by reflexivity.
  rewrite E, StrFacts.startswith_app, Hp.
  rewrite (startswith_run 3 4), (startswith_run 2 4), (startswith_run 1 4)
    by (assumption || lia).
  reflexivity.
Qed.

Lemma replace_first_marker (pre post new : str) :
  no_underscore pre ->
  replace_first BLANK new (pre ++ BLANK ++ post) = pre ++ new ++ post.
Proof.
  induction pre as [|c pre IH]; intros H.
  - change ([] ++ BLANK ++ post) with (BLANK ++ post).
    change ([] ++ new ++ post) with (new ++ post).
    assert (R : replace_first BLANK new (BLANK ++ post)
                = new ++ skipn (length BLANK) (BLANK ++ post)).
    { pose proof (StrFacts.startswith_app BLANK post) as E.
      destruct (BLANK ++ post) as [|x r]; cbn [replace_first];
        rewrite E; reflexivity. }
    rewrite R, StrFacts.skipn_length_app. reflexivity.
  - apply no_underscore_cons in H. destruct H as [Hc Hs].
    change ((c :: pre) ++ BLANK ++ post) with (c :: (pre ++ BLANK ++ post)).
    cbn [replace_first].
    rewrite (startswith_BLANK_cons _ _ Hc), (IH Hs). reflexivity.
Qed.

(** C1, as the code has it: for a sentence without the underscore character,
    whenever [make_fill_in_blank] returns a question and an answer, the
    question has exactly one blank marker, and putting the answer in the
    place of the first marker gives the sentence back. *)
Theorem fill_blank_round_trip (sent : str) :
  no_underscore sent -> blank_round_trip sent.
Proof.
  intros Hno scored q a H.
  destruct (make_fill_in_blank_Some _ _ _ _ H) as [_ [pre [post [Hs Hq]]]].
  rewrite Hs in Hno.
  apply no_underscore_app in Hno. destruct Hno as [Hpre Hrest].
  apply no_underscore_app in Hrest. destruct Hrest as [_ Hpost].
  subst q. split.
  - rewrite (occurrences_skip _ _ Hpre), (occurrences_marker _ Hpost).
    reflexivity.
  - rewrite (replace_first_marker _ _ _ Hpre). symmetry; exact Hs.
Qed.

(** The round trip on "The cat sat on the mat.". *)
Lemma fill_blank_round_trip_witness :
  blank_round_trip (lit "The cat sat on the mat.").
Proof.
  apply (fill_blank_round_trip (lit "The cat sat on the mat.")).
  unfold no_underscore. vm_compute. intuition discriminate.
Defined.

(** C1 as stated fails on a sentence that has the marker already:
    "____ cat" gives the question "____ ____", with two markers, and the
    answer "cat" put in the place of the first one gives "cat ____". *)
Lemma fill_blank_round_trip_counterexample :
  ~ blank_round_trip (lit "____ cat").
Proof.
  intros H.
  destruct (H [] (lit "____ ____") (lit "cat") eq_refl) as [H1 _].
  vm_compute in H1. discriminate.
Qed.

(** C3: [make_fill_in_blank] returns the pair of nones exactly when the
    sentence has no token; a sentence with a token gets a question and an
    answer; and a round of the loop of [generate_quiz] on a sentence for
    which the pair of nones is returned leaves the fill-in-the-blank list
    as it was, so the quota is not used.  The pair of nones raises no
    error: when the round raises one, it is [make_true_false] that did,
    while its quota was not met. *)
Theorem fill_blank_soft_failure
        {IL : IntLimit} {DT : DecimalTable} {R : Type} {RS : RandomSource R}
        (sent : str) (scored : list (str * Q)) :
  (make_fill_in_blank sent scored = None <-> tokenize sent = [])
  /\ (tokenize sent <> [] ->
      exists q a, make_fill_in_blank sent scored = Some (q, a))
  /\ (forall (num_tf num_blank : Z) (w : Walk (R := R)),
         make_fill_in_blank sent scored = None ->
         match quiz_round num_tf num_blank scored sent w with
         | Some w' => blank_list w' = blank_list w
         | None =>
           (Z.of_nat (length (tf_list w)) <? num_tf) = true
           /\ make_true_false sent scored (rnd_state w) = None
         end).
Proof.
  split; [apply make_fill_in_blank_None|]. split.
  - intros Ht.
    destruct (make_fill_in_blank sent scored) as [[q a]|] eqn:E.
    + exists q, a. reflexivity.
    + apply make_fill_in_blank_None in E. contradiction.
  - intros num_tf num_blank w E. unfold quiz_round. rewrite E.
    destruct (Z.of_nat (length (tf_list w)) <? num_tf).
    + destruct (make_true_false sent scored (rnd_state w))
        as [[[[q t] e] r]|].
      * destruct (Z.of_nat (length (blank_list w)) <? num_blank);
          reflexivity.
      * split; reflexivity.
    + destruct (Z.of_nat (length (blank_list w)) <? num_blank);
        reflexivity.
Qed.

(* ================================================================= *)
(** * Sentences *)

Lemma lstrip_head (s : str) (c : char) (r : str) :
  lstrip s = c :: r -> isspace c = false.
Proof.
  induction s as [|x s IH]; simpl; [discriminate|].
  destruct (isspace x) eqn:E; [exact IH|].
  intros H. injection H as -> _. exact E.
Qed.

Lemma lstrip_fix (s : str) :
  (forall c r, s = c :: r -> isspace c = false) -> lstrip s = s.
Proof.
  destruct s as [|c r]; intros H; [reflexivity|].
  simpl. rewrite (H c r eq_refl). reflexivity.
Qed.

Lemma lstrip_suffix (s : str) : exists pre, s = pre ++ lstrip s.
Proof.
  induction s as [|c s [pre IH]]; [exists []; reflexivity|].
  simpl. destruct (isspace c).
  - exists (c :: pre). simpl. rewrite <- IH. reflexivity.
  - exists []. reflexivity.
Qed.

Lemma lstrip_idempotent (s : str) : lstrip (lstrip s) = lstrip s.
Proof. apply lstrip_fix. intros c r. apply lstrip_head. Qed.

(** [strip] leaves a stripped string as it is. *)
Lemma strip_idempotent (s : str) : strip (strip s) = strip s.
Proof.
  unfold strip.
  set (t := lstrip s). set (u := lstrip (rev t)).
  assert (H1 : lstrip (rev u) = rev u).
  { apply lstrip_fix. intros c r Hc.
    destruct (lstrip_suffix (rev t)) as [pre Hp]. fold u in Hp.
    apply (f_equal (@rev char)) in Hp.
    rewrite rev_involutive, rev_app_distr, Hc in Hp.
    apply (lstrip_head s c (r ++ rev pre)). exact Hp. }
  rewrite H1, rev_involutive. unfold u. rewrite lstrip_idempotent.
  reflexivity.
Qed.

(** C5: every sentence that [split_sentences] returns is trimmed and has at
    least three characters; the fragments whose trimmed length is less than
    three are not among them. *)
Theorem split_sentences_length (text : str) :
  Forall (fun x => strip x = x /\ 3 <= len (strip x)) (split_sentences text)
  /\ (forall p, len (strip p) < 3 -> ~ In (strip p) (split_sentences text)).
Proof.
  assert (F : Forall (fun x => strip x = x /\ 3 <= len (strip x))
                     (split_sentences text)).
  { unfold split_sentences. destruct text as [|c text]; [constructor|].
    apply Forall_forall. intros x Hx.
    apply in_map_iff in Hx. destruct Hx as [p [<- Hp]].
    apply filter_In in Hp. destruct Hp as [_ Hp].
    apply Z.leb_le in Hp.
    rewrite strip_idempotent. split; [reflexivity | exact Hp]. }
  split; [exact F|].
  intros p Hp Hin. rewrite Forall_forall in F.
  destruct (F _ Hin) as [_ H3]. rewrite strip_idempotent in H3. lia.
Qed.

(* ================================================================= *)
(** * Empty input *)

(** C7: the empty text has no sentence, and [generate_all] on it returns the
    empty document, whatever the categories, the counts and the random
    source are; no error is raised. *)
Theorem generate_all_empty
        {IL : IntLimit} {DT : DecimalTable} {R : Type} {RS : RandomSource R}
        (fresh : R) (types : list str) (num_discussion num_tf num_blank : Z) :
  split_sentences [] = []
  /\ generate_discussion_topics [] num_discussion = []
  /\ generate_quiz fresh [] num_tf num_blank
     = Some {| tf := []; blank := [] |}
  /\ generate_all fresh [] types num_discussion num_tf num_blank = Some [].
Proof.
  assert (D : generate_discussion_topics [] num_discussion = []).
  { unfold generate_discussion_topics, slice_to. simpl split_sentences.
    destruct (num_discussion <? 0); rewrite firstn_nil; reflexivity. }
  repeat split; try reflexivity; try exact D.
  unfold generate_all. rewrite D.
  change (generate_quiz fresh [] num_tf num_blank)
    with (Some {| tf := []; blank := [] |}).
  unfold format_output.
  destruct (mem (lit "토론 주제") types), (mem (lit "OX 문제") types),
    (mem (lit "빈칸 문제") types); reflexivity.
Qed.

(* ================================================================= *)
(** * Scores *)

(** C10: [score_tokens] does not use its first parameter. *)
Theorem score_tokens_ignores_text (text1 text2 : str) (sents : list str) :
  score_tokens text1 sents = score_tokens text2 sents.
Proof. reflexivity. Qed.

Lemma eqb_false (a b : str) : a <> b -> eqb a b = false.
Proof.
  intros H. destruct (eqb a b) eqn:E; [|reflexivity].
  apply StrFacts.eqb_eq in E. contradiction.
Qed.

Lemma frequency_snoc (t x : str) (l : list str) :
  frequency t (l ++ [x]) = frequency t l + (if eqb t x then 1 else 0).
Proof.
  unfold frequency. rewrite filter_app, length_app. simpl.
  destruct (eqb t x); simpl; lia.
Qed.

Lemma frequency_nonneg (t : str) (l : list str) : 0 <= frequency t l.
Proof. unfold frequency. lia. Qed.

Section Dict.

Variable V : Type.

Lemma dict_get_set_same (k : str) (v : V) (d : list (str * V)) :
  dict_get k (dict_set k v d) = Some v.
Proof.
  induction d as [|[k' v'] d IH]; simpl.
  - rewrite StrFacts.eqb_refl. reflexivity.
  - destruct (eqb k' k) eqn:E; simpl; rewrite E; auto.
Qed.

Lemma dict_get_set_other (k k' : str) (v : V) (d : list (str * V)) :
  k <> k' -> dict_get k' (dict_set k v d) = dict_get k' d.
Proof.
  intros H. induction d as [|[k0 v0] d IH]; simpl.
  - rewrite (eqb_false _ _ H). reflexivity.
  - destruct (eqb k0 k) eqn:E; simpl.
    + apply StrFacts.eqb_eq in E. subst k0.
      rewrite (eqb_false _ _ H). reflexivity.
    + destruct (eqb k0 k'); auto.
Qed.

Lemma dict_get_None (k : str) (d : list (str * V)) :
  dict_get k d = None <-> ~ In k (map fst d).
Proof.
  induction d as [|[k0 v0] d IH]; simpl; [tauto|].
  destruct (eqb k0 k) eqn:E.
  - apply StrFacts.eqb_eq in E. split; [discriminate | intros H; tauto].
  - rewrite IH. split; [|tauto].
    intros H [H1 | H1]; [|tauto].
    subst k0. rewrite StrFacts.eqb_refl in E. discriminate.
Qed.

(** Setting a key that the dictionary does not have appends it. *)
Lemma dict_set_append (k : str) (v : V) (d : list (str * V)) :
  dict_get k d = None -> dict_set k v d = d ++ [(k, v)].
Proof.
  induction d as [|[k0 v0] d IH]; simpl; [reflexivity|].
  destruct (eqb k0 k); [discriminate|].
  intros H. rewrite (IH H). reflexivity.
Qed.

(** Setting a key that the dictionary has keeps the keys and their order. *)
Lemma dict_set_keys (k : str) (v : V) (d : list (str * V)) :
  map fst (dict_set k v d)
  = match dict_get k d with
    | Some _ => map fst d
    | None => map fst d ++ [k]
    end.
Proof.
  induction d as [|[k0 v0] d IH]; simpl; [reflexivity|].
  destruct (eqb k0 k) eqn:E; simpl; [reflexivity|].
  rewrite IH. destruct (dict_get k d); reflexivity.
Qed.

Lemma dict_get_In (k : str) (v : V) (d : list (str * V)) :
  NoDup (map fst d) -> In (k, v) d -> dict_get k d = Some v.
Proof.
  induction d as [|[k0 v0] d IH]; simpl; [tauto|].
  intros Hnd [H | H].
  - injection H as -> ->. rewrite StrFacts.eqb_refl. reflexivity.
  - inversion Hnd as [|? ? Hni Hnd']; subst.
    destruct (eqb k0 k) eqn:E; [|apply IH; assumption].
    apply StrFacts.eqb_eq in E. subst k0. exfalso. apply Hni.
    apply in_map_iff. exists (k, v). split; [reflexivity | assumption].
Qed.

End Dict.

Lemma NoDup_snoc {A : Type} (l : list A) (a : A) :
  NoDup l -> ~ In a l -> NoDup (l ++ [a]).
Proof.
  induction l as [|x l IH]; simpl; intros Hnd Hni.
  - constructor; [tauto | constructor].
  - inversion Hnd as [|? ? Hx Hl]; subst. constructor.
    + rewrite in_app_iff. simpl. intros [H | [H | []]]; [tauto|].
      subst. tauto.
    + apply IH; tauto.
Qed.

Lemma Counter_snoc (l : list str) (t : str) :
  Counter (l ++ [t])
  = dict_set t (match dict_get t (Counter l) with
                | Some n => n + 1
                | None => 1
                end) (Counter l).
Proof. unfold Counter. rewrite fold_left_app. reflexivity. Qed.

(** What [Counter] builds: one entry for each distinct element, in the
    order of first occurrence, with the number of its occurrences. *)
Lemma Counter_spec (l : list str) :
  NoDup (map fst (Counter l))
  /\ (forall t, In t (map fst (Counter l)) <-> In t l)
  /\ (forall t, dict_get t (Counter l)
                = if frequency t l =? 0 then None else Some (frequency t l)).
Proof.
  induction l as [|x l [IH1 [IH2 IH3]]] using rev_ind.
  - repeat split; try constructor; simpl; tauto.
  - rewrite Counter_snoc.
    set (v := match dict_get x (Counter l) with
              | Some n => n + 1 | None => 1 end).
    split; [|split].
    + rewrite dict_set_keys.
      destruct (dict_get x (Counter l)) eqn:E; [exact IH1|].
      apply NoDup_snoc; [exact IH1 | apply dict_get_None; exact E].
    + intros t. rewrite dict_set_keys, in_app_iff. simpl.
      destruct (dict_get x (Counter l)) eqn:E.
      * rewrite IH2. split; [tauto|]. intros [H | [H | []]]; [exact H|].
        subst t. apply IH2.
        destruct (in_dec (list_eq_dec Z.eq_dec) x (map fst (Counter l)))
          as [Hi | Hn]; [exact Hi|].
        apply dict_get_None in Hn. congruence.
      * rewrite in_app_iff, IH2. simpl. tauto.
    + intros t. rewrite frequency_snoc.
      pose proof (frequency_nonneg t l) as Hf.
      destruct (list_eq_dec Z.eq_dec x t) as [-> | Hne].
      * rewrite dict_get_set_same, StrFacts.eqb_refl. unfold v.
        rewrite IH3.
        destruct (frequency t l =? 0) eqn:E0.
        -- apply Z.eqb_eq in E0. rewrite E0. reflexivity.
        -- destruct (frequency t l + 1 =? 0) eqn:E1;
             [apply Z.eqb_eq in E1; lia | reflexivity].
      * rewrite (dict_get_set_other _ _ _ _ _ Hne), IH3.
        rewrite (eqb_false t x) by congruence.
        rewrite Z.add_0_r. reflexivity.
Qed.

(** The loop over [freq.items()] sets each key once, so it maps the
    entries. *)
Lemma scores_map (freq : list (str * Z)) :
  NoDup (map fst freq) ->
  fold_left (fun d tf => dict_set (fst tf) (score_of (fst tf) (snd tf)) d)
            freq []
  = map (fun tf => (fst tf, score_of (fst tf) (snd tf))) freq.
Proof.
  induction freq as [|x freq IH] using rev_ind; intros Hnd; [reflexivity|].
  rewrite map_app in Hnd. simpl in Hnd.
  apply NoDup_remove in Hnd. rewrite app_nil_r in Hnd.
  destruct Hnd as [Hnd Hni].
  rewrite fold_left_app, map_app. simpl. rewrite (IH Hnd).
  apply dict_set_append. apply dict_get_None.
  rewrite map_map. simpl. exact Hni.
Qed.

Lemma tokens_flat_map (sents : list str) (acc : list str) :
  fold_left (fun acc s => acc ++ tokenize s) sents acc
  = acc ++ flat_map tokenize sents.
Proof.
  revert acc. induction sents as [|s sents IH]; intros acc; simpl.
  - rewrite app_nil_r. reflexivity.
  - rewrite IH, app_assoc. reflexivity.
Qed.

Section Sorting.

Context {A : Type} (key : A -> Q).

Let desc (a b : A) : Prop := (key b <= key a)%Q.

Lemma insert_desc_perm (x : A) (l : list A) :
  Permutation (x :: l) (insert_desc key x l).
Proof.
  induction l as [|y l IH]; simpl; [reflexivity|].
  destruct (Qle_bool (key y) (key x)); [reflexivity|].
  rewrite perm_swap. constructor. exact IH.
Qed.

Lemma sorted_reverse_perm (l : list A) :
  Permutation l (sorted_reverse key l).
Proof.
  induction l as [|x l IH]; simpl; [reflexivity|].
  rewrite <- insert_desc_perm. constructor. exact IH.
Qed.

Lemma insert_desc_HdRel (a x : A) (l : list A) :
  desc a x -> HdRel desc a l -> HdRel desc a (insert_desc key x l).
Proof.
  intros Hax Hl. destruct l as [|y l]; simpl; [constructor; exact Hax|].
  destruct (Qle_bool (key y) (key x)); constructor;
    [exact Hax | inversion Hl; assumption].
Qed.

Lemma insert_desc_sorted (x : A) (l : list A) :
  Sorted desc l -> Sorted desc (insert_desc key x l).
Proof.
  induction l as [|y l IH]; intros Hs; simpl.
  - repeat constructor.
  - inversion Hs as [|? ? Hl Hh]; subst.
    destruct (Qle_bool (key y) (key x)) eqn:E.
    + apply Qle_bool_iff in E. constructor; [exact Hs|].
      constructor. exact E.
    + constructor; [apply IH; exact Hl|].
      apply insert_desc_HdRel; [|exact Hh].
      unfold desc. apply Qlt_le_weak, Qnot_le_lt.
      intros H. apply Qle_bool_iff in H. congruence.
Qed.

Lemma sorted_reverse_sorted (l : list A) :
  StronglySorted desc (sorted_reverse key l).
Proof.
  apply Sorted_StronglySorted.
  - intros a b c Hab Hbc. unfold desc in *. eapply Qle_trans; eassumption.
  - induction l as [|x l IH]; simpl; [constructor|].
    apply insert_desc_sorted. exact IH.
Qed.

End Sorting.

Lemma frequency_count (t : str) (l : list str) :
  frequency t l = Z.of_nat (count_occ str_eq_dec l t).
Proof.
  unfold frequency. f_equal.
  induction l as [|x l IH]; [reflexivity|]. cbn [filter count_occ].
  destruct (str_eq_dec x t) as [-> | Hne].
  - rewrite StrFacts.eqb_refl. cbn [length]. rewrite IH. reflexivity.
  - rewrite (eqb_false t x) by congruence. exact IH.
Qed.

Lemma count_occ_filter (f : str -> bool) (t : str) (l : list str) :
  f t = true ->
  count_occ str_eq_dec (filter f l) t = count_occ str_eq_dec l t.
Proof.
  intros Ht. induction l as [|x l IH]; [reflexivity|].
  cbn [filter count_occ]. destruct (f x) eqn:Fx.
  - cbn [count_occ]. destruct (str_eq_dec x t); rewrite IH; reflexivity.
  - destruct (str_eq_dec x t) as [-> | Hne]; [congruence | exact IH].
Qed.

(** C6: the terms that [score_tokens] returns are the tokens of the
    sentences whose lower-case form (the letters A to Z replaced by a to z)
    is not a stop word, each once; the score of a term is the number of its
    occurrences among the tokens plus a quarter of its length; and the
    pairs come with scores that do not increase. *)
Theorem score_tokens_spec (text : str) (sents : list str) :
  let tokens := flat_map tokenize sents in
  let lowered (t : str) :=
    map (fun c => if (65 <=? c) && (c <=? 90) then c + 32 else c) t in
  let result := score_tokens text sents in
  NoDup (map fst result)
  /\ (forall t, In t (map fst result)
                <-> In t tokens /\ ~ In (lowered t) STOPWORDS)
  /\ (forall t sc,
         In (t, sc) result ->
         sc = (inject_Z (Z.of_nat (count_occ str_eq_dec tokens t))
               + inject_Z (Z.of_nat (length t)) / 4)%Q)
  /\ StronglySorted (fun a b => (snd b <= snd a)%Q) result.
Proof.
  intros tokens lowered result.
  set (kept := filter (fun t => negb (mem (lower t) STOPWORDS)) tokens).
  set (g := fun tf : str * Z => (fst tf, score_of (fst tf) (snd tf))).
  assert (E : result = sorted_reverse snd (map g (Counter kept))).
  { unfold result, score_tokens. rewrite tokens_flat_map. simpl app.
    fold tokens. fold kept.
    rewrite scores_map by apply Counter_spec. reflexivity. }
  destruct (Counter_spec kept) as [C1 [C2 C3]].
  assert (K : map fst (map g (Counter kept)) = map fst (Counter kept))
    by (rewrite map_map; reflexivity).
  assert (P : Permutation (map g (Counter kept)) result)
    by (rewrite E; apply sorted_reverse_perm).
  assert (Kept : forall t, In t kept
                           <-> In t tokens /\ ~ In (lowered t) STOPWORDS).
  { intros t. unfold kept. rewrite filter_In, negb_true_iff.
    change (lower t) with (lowered t).
    split; intros [H1 H2]; (split; [exact H1|]).
    - intros Hin. apply StrFacts.mem_In in Hin. congruence.
    - destruct (mem (lowered t) STOPWORDS) eqn:M; [|reflexivity].
      apply StrFacts.mem_In in M. contradiction. }
  split; [|split; [|split]].
  - apply (Permutation_NoDup (Permutation_map fst P)). rewrite K. exact C1.
  - intros t. rewrite <- Kept, <- C2, <- K. split; apply Permutation_in.
    + apply Permutation_sym, Permutation_map, P.
    + apply Permutation_map, P.
  - intros t sc H.
    apply (Permutation_in _ (Permutation_sym P)) in H.
    apply in_map_iff in H. destruct H as [[t' f] [Hg Hin]].
    unfold g in Hg. simpl in Hg. injection Hg as -> <-.
    assert (Hk : In t kept).
    { apply C2. apply in_map_iff. exists (t, f). split; [reflexivity | exact Hin]. }
    pose proof (dict_get_In _ _ _ _ C1 Hin) as Hget.
    rewrite C3 in Hget.
    destruct (frequency t kept =? 0); [discriminate|].
    injection Hget as <-.
    unfold score_of, len. rewrite frequency_count. unfold kept.
    rewrite count_occ_filter; [reflexivity|].
    unfold kept in Hk. apply filter_In in Hk. exact (proj2 Hk).
  - rewrite E. apply (sorted_reverse_sorted snd).
Qed.

(* ================================================================= *)
(** * True / false *)

Lemma match_run_all (p : char -> bool) (s t r : str) :
  match_run p s = Some (t, r) -> forallb p t = true.
Proof.
  unfold match_run. destruct (span p s) as [a b] eqn:E.
  destruct (TokenFacts.span_spec _ _ _ _ E) as [_ [Ha _]].
  destruct a as [|c a]; [discriminate|].
  intros H. injection H as <- _. exact Ha.
Qed.

Lemma match_run_productive (p : char -> bool) :
  productive (match_run p).
Proof.
  intros s t r H.
  destruct (TokenFacts.match_run_spec _ _ _ _ H) as [Hs [Hh _]].
  split; [exact Hs|]. destruct t; [contradiction | discriminate].
Qed.

Section Numbers.

Context {IL : IntLimit} {DT : DecimalTable}.

(** A digit run that [re.findall] returns is made of decimal digits. *)
Lemma findall_digits_decimal (s n : str) :
  In n (findall_digits s) -> n <> [] /\ forallb isdecimal n = true.
Proof.
  intros H. unfold findall_digits in H.
  destruct (finditer_In _ (match_run_productive isdecimal) _ _ _ H)
    as [pre [s' [r [_ Hp]]]].
  split.
  - destruct (match_run_productive isdecimal _ _ _ Hp) as [_ Hne]. exact Hne.
  - exact (match_run_all _ _ _ _ Hp).
Qed.

(** The number read from digits, starting from [acc], is at least [acc]
    written with as many zeros, and less than [acc + 1] written so. *)
Lemma digits_value_acc (n : str) (acc : Z) :
  forallb isdecimal n = true -> 0 <= acc ->
  acc * 10 ^ len n
  <= fold_left (fun acc c => acc * 10 + decimal_value c) n acc
  < (acc + 1) * 10 ^ len n.
Proof.
  revert acc. induction n as [|c n IH]; intros acc Hd Hacc.
  - cbn [fold_left]. change (len []) with 0. rewrite Z.pow_0_r. lia.
  - cbn [fold_left forallb] in *.
    apply andb_true_iff in Hd. destruct Hd as [Hc Hn].
    pose proof (decimal_value_range c Hc) as Hv.
    assert (Ha : 0 <= acc * 10 + decimal_value c) by lia.
    specialize (IH (acc * 10 + decimal_value c) Hn Ha).
    unfold len in *. cbn [length]. rewrite Nat2Z.inj_succ.
    rewrite Z.pow_succ_r by lia.
    assert (P : 0 < 10 ^ Z.of_nat (length n)) by (apply Z.pow_pos_nonneg; lia).
    nia.
Qed.

Lemma digits_value_range (n : str) :
  forallb isdecimal n = true -> 0 <= digits_value n < 10 ^ len n.
Proof.
  intros H. pose proof (digits_value_acc n 0 H ltac:(lia)) as B.
  unfold digits_value. lia.
Qed.

(** Reading the digits that [digits_fuel] writes in front of [acc] amounts
    to starting the reading of [acc] from the number written. *)
Lemma digits_fuel_read (fuel : nat) (n : Z) (acc : str) :
  0 <= n < 2 ^ Z.of_nat fuel ->
  fold_left (fun a c => a * 10 + decimal_value c) (digits_fuel fuel n acc) 0
  = fold_left (fun a c => a * 10 + decimal_value c) acc n.
Proof.
  revert n acc. induction fuel as [|f IH]; intros n acc Hn.
  - simpl in Hn. assert (n = 0) by lia. subst n. reflexivity.
  - cbn [digits_fuel].
    assert (Hm : 0 <= n mod 10 < 10) by (apply Z.mod_pos_bound; lia).
    assert (Hv : decimal_value (48 + n mod 10) = n mod 10).
    { rewrite decimal_value_ascii; [lia|].
      unfold is_digit. apply andb_true_iff.
      split; apply Z.leb_le; lia. }
    destruct (n <? 10) eqn:E.
    + apply Z.ltb_lt in E. cbn [fold_left]. rewrite Hv.
      rewrite Z.mod_small by lia. reflexivity.
    + apply Z.ltb_ge in E. rewrite IH.
      * cbn [fold_left]. rewrite Hv. f_equal.
        pose proof (Z.div_mod n 10). lia.
      * rewrite Nat2Z.inj_succ, Z.pow_succ_r in Hn by lia.
        split; [apply Z.div_pos; lia|].
        apply Z.div_lt_upper_bound; lia.
Qed.

(** The decimal writing of a natural number writes that number. *)
Lemma digits_value_decimal (z : Z) : 0 <= z -> digits_value (decimal z) = z.
Proof.
  intros Hz. unfold decimal, digits_value.
  destruct (z <? 0) eqn:E; [apply Z.ltb_lt in E; lia|].
  rewrite digits_fuel_read; [reflexivity|].
  split; [exact Hz|].
  rewrite Nat2Z.inj_succ, Z2Nat.id by apply Z.log2_nonneg.
  destruct (Z.eq_dec z 0) as [-> | Hne]; [reflexivity|].
  apply Z.log2_spec. lia.
Qed.

(** A number below [10 ^ d] is written with [d] digits at most. *)
Lemma digits_fuel_length (fuel : nat) :
  forall (n : Z) (acc : str) (d : Z),
    0 <= n < 10 ^ d -> 1 <= d ->
    len (digits_fuel fuel n acc) <= len acc + d.
Proof.
  induction fuel as [|f IH]; intros n acc d Hn Hd; cbn [digits_fuel];
    [lia|].
  assert (L : len ((48 + n mod 10) :: acc) = len acc + 1)
    by (unfold len; cbn [length]; lia).
  destruct (n <? 10) eqn:E; [lia|].
  apply Z.ltb_ge in E.
  assert (D : 2 <= d).
  { destruct (Z.eq_dec d 1) as [-> | Hne]; [|lia]. simpl in Hn. lia. }
  specialize (IH (n / 10) ((48 + n mod 10) :: acc) (d - 1)).
  rewrite L in IH.
  assert (Hq : 0 <= n / 10 < 10 ^ (d - 1)).
  { split; [apply Z.div_pos; lia|].
    apply Z.div_lt_upper_bound; [lia|].
    rewrite <- Z.pow_succ_r by lia.
    replace (Z.succ (d - 1)) with d by lia. lia. }
  specialize (IH Hq ltac:(lia)). lia.
Qed.

Lemma decimal_length (z d : Z) :
  0 <= z < 10 ^ d -> 1 <= d -> len (decimal z) <= d.
Proof.
  intros Hz Hd. unfold decimal.
  destruct (z <? 0) eqn:E; [apply Z.ltb_lt in E; lia|].
  pose proof (digits_fuel_length (S (Z.to_nat (Z.log2 z))) z [] d Hz Hd) as L.
  unfold len in *. simpl length in L at 2. lia.
Qed.

Lemma exceeds_limit_le (a b : Z) :
  exceeds_limit a = false -> b <= a -> exceeds_limit b = false.
Proof.
  unfold exceeds_limit. intros H L.
  destruct (0 <? max_str_digits); [|reflexivity]. cbn [andb] in *.
  apply Z.ltb_ge in H. apply Z.ltb_ge. lia.
Qed.

(** What [str] returns for a natural number. *)
Lemma of_Z_Some (z : Z) (s : str) :
  0 <= z -> of_Z z = Some s ->
  s = decimal z /\ exceeds_limit (len s) = false.
Proof.
  intros Hz. unfold of_Z.
  destruct (z <? 0) eqn:E; [apply Z.ltb_lt in E; lia|].
  destruct (exceeds_limit (len (decimal z))) eqn:X; [discriminate|].
  intros H. injection H as <-. split; [reflexivity | exact X].
Qed.

(** [int(str(z)) = z] for a natural number that [str] accepts. *)
Lemma int_of_of_Z (z : Z) (s : str) :
  0 <= z -> of_Z z = Some s -> int_of s = Some z.
Proof.
  intros Hz H. destruct (of_Z_Some z s Hz H) as [-> X].
  unfold int_of. rewrite X, (digits_value_decimal z Hz). reflexivity.
Qed.

(** [str] accepts a natural number below [10 ^ d] when [d] digits are
    within the limit. *)
Lemma of_Z_fits (z d : Z) :
  0 <= z < 10 ^ d -> 1 <= d -> exceeds_limit d = false ->
  of_Z z = Some (decimal z).
Proof.
  intros Hz Hd X. unfold of_Z.
  destruct (z <? 0) eqn:E; [apply Z.ltb_lt in E; lia|].
  rewrite (exceeds_limit_le d _ X (decimal_length z d Hz Hd)). reflexivity.
Qed.

End Numbers.

(** The shape of the explanation of a changed number. *)
Lemma contains_explanation (a b n c new_n : str) :
  contains n (a ++ b ++ n ++ c ++ new_n) = true
  /\ contains new_n (a ++ b ++ n ++ c ++ new_n) = true.
Proof.
  split.
  - rewrite (app_assoc a b). apply StrFacts.contains_substring.
  - rewrite (app_assoc a b), (app_assoc _ n), (app_assoc _ c).
    rewrite <- (app_nil_r new_n) at 2.
    apply StrFacts.contains_substring.
Qed.

Section Draws.

Context {R : Type} {RS : RandomSource R}.

Lemma choice_In {A : Type} (seq : list A) (d : A) (rnd : R) :
  In d seq -> In (fst (choice seq d rnd)) seq.
Proof.
  intros Hd. unfold choice.
  destruct (randbelow (Z.of_nat (length seq)) rnd) as [i r].
  cbn [fst].
  destruct (nth_in_or_default (Z.to_nat i) seq d) as [Hi | Hi];
    [exact Hi | rewrite Hi; exact Hd].
Qed.

Lemma randint_range (a b : Z) (rnd : R) :
  a <= b -> a <= fst (randint a b rnd) <= b.
Proof.
  intros Hab. unfold randint.
  pose proof (randbelow_range (b - a + 1) rnd ltac:(lia)) as Hr.
  destruct (randbelow (b - a + 1) rnd) as [j r].
  cbn [fst] in *. lia.
Qed.

End Draws.

(** C2: when [make_true_false] answers false, a digit run [n] of the
    sentence, which writes the number [v], was replaced by the digits
    [new_n] of the number [v + k], with [k] from 1 to 10, and the
    explanation contains both [n] and [new_n]. *)
Theorem true_false_consistency
        {IL : IntLimit} {DT : DecimalTable} {R : Type} {RS : RandomSource R}
        (sent : str) (scored : list (str * Q)) (rnd : R)
        (statement explanation : str) (rnd' : R) :
  make_true_false sent scored rnd
  = Some ((statement, false, explanation), rnd') ->
  exists (n new_n : str) (v k : Z),
    In n (findall_digits sent)
    /\ 1 <= k <= 10
    /\ int_of n = Some v
    /\ of_Z (v + k) = Some new_n
    /\ int_of new_n = Some (v + k)
    /\ statement = replace_first n new_n sent
    /\ contains n explanation = true
    /\ contains new_n explanation = true.
Proof.
  unfold make_true_false.
  destruct (findall_digits sent) as [|n0 ns] eqn:E; [discriminate|].
  destruct (random_below_0_6 rnd) as [below rnd1].
  destruct below; [|discriminate].
  destruct (choice (n0 :: ns) n0 rnd1) as [n rnd2] eqn:Ec.
  destruct (int_of n) as [v|] eqn:Ev; [|discriminate].
  destruct (randint 1 10 rnd2) as [k rnd3] eqn:Er.
  destruct (of_Z (v + k)) as [new_n|] eqn:En; [|discriminate].
  intros H.
  assert (Hs : replace_first n new_n sent = statement) by congruence.
  assert (He : (lit "원문: '" ++ sent ++ lit "'")
               ++ lit " -> 숫자 변경 " ++ n ++ lit "→" ++ new_n
               = explanation) by congruence.
  clear H.
  assert (Hin : In n (n0 :: ns)).
  { pose proof (choice_In (n0 :: ns) n0 rnd1 (or_introl eq_refl)) as Hc.
    rewrite Ec in Hc. exact Hc. }
  assert (Hk : 1 <= k <= 10).
  { pose proof (randint_range 1 10 rnd2 ltac:(lia)) as Hr.
    rewrite Er in Hr. exact Hr. }
  assert (Hin' : In n (findall_digits sent)) by (rewrite E; exact Hin).
  destruct (findall_digits_decimal _ _ Hin') as [_ Hd].
  assert (Hv : 0 <= v).
  { unfold int_of in Ev. destruct (exceeds_limit (len n)); [discriminate|].
    injection Ev as <-. apply (digits_value_range n Hd). }
  exists n, new_n, v, k.
  split; [exact Hin|]. split; [exact Hk|]. split; [exact Ev|].
  split; [exact En|].
  split; [apply (int_of_of_Z (v + k) new_n); [lia | exact En]|].
  split; [symmetry; exact Hs|].
  rewrite <- He. apply contains_explanation.
Qed.

Lemma true_false_consistency_witness :
  exists (n new_n : str) (v k : Z),
    In n (findall_digits (DT := ascii_decimals) (lit "It was 5 years old."))
    /\ 1 <= k <= 10
    /\ int_of (IL := default_limit) (DT := ascii_decimals) n = Some v
    /\ of_Z (IL := default_limit) (v + k) = Some new_n
    /\ int_of (IL := default_limit) (DT := ascii_decimals) new_n
       = Some (v + k)
    /\ lit "It was 8 years old."
       = replace_first n new_n (lit "It was 5 years old.")
    /\ contains n (lit "원문: 'It was 5 years old.' -> 숫자 변경 5→8") = true
    /\ contains new_n (lit "원문: 'It was 5 years old.' -> 숫자 변경 5→8")
       = true.
Proof.
  apply (true_false_consistency
           (IL := default_limit) (DT := ascii_decimals) (RS := tape_source)
           (lit "It was 5 years old.") [] [0; 0; 2]
           (lit "It was 8 years old.")
           (lit "원문: 'It was 5 years old.' -> 숫자 변경 5→8") []).
  reflexivity.
Defined.

Section Returns.

Context {IL : IntLimit} {DT : DecimalTable}.
Context {R : Type} {RS : RandomSource R}.

(** [make_true_false] returns for a sentence whose digit runs are shorter
    than the limit. *)
Lemma make_true_false_returns (sent : str) (scored : list (str * Q))
      (rnd : R) :
  numbers_fit sent -> exists r, make_true_false sent scored rnd = Some r.
Proof.
  intros F. unfold make_true_false.
  destruct (findall_digits sent) as [|n0 ns] eqn:E; [eexists; reflexivity|].
  destruct (random_below_0_6 rnd) as [below rnd1].
  destruct below; [|eexists; reflexivity].
  destruct (choice (n0 :: ns) n0 rnd1) as [n rnd2] eqn:Ec.
  assert (Hin : In n (findall_digits sent)).
  { rewrite E.
    pose proof (choice_In (n0 :: ns) n0 rnd1 (or_introl eq_refl)) as Hc.
    rewrite Ec in Hc. exact Hc. }
  destruct (findall_digits_decimal _ _ Hin) as [Hne Hd].
  unfold numbers_fit in F. rewrite Forall_forall in F.
  pose proof (F n Hin) as X. cbv beta in X.
  unfold int_of. rewrite (exceeds_limit_le _ (len n) X) by lia.
  destruct (randint 1 10 rnd2) as [k rnd3] eqn:Er.
  assert (Hk : 1 <= k <= 10).
  { pose proof (randint_range 1 10 rnd2 ltac:(lia)) as Hr.
    rewrite Er in Hr. exact Hr. }
  pose proof (digits_value_range n Hd) as B.
  assert (L : 1 <= len n).
  { unfold len. destruct n; [congruence | cbn [length]; lia]. }
  rewrite (of_Z_fits (digits_value n + k) (len n + 1)); [eexists; reflexivity | | lia | exact X].
  rewrite Z.pow_add_r by lia.
  assert (P : 10 <= 10 ^ len n).
  { change 10 with (10 ^ 1) at 1. apply Z.pow_le_mono_r; lia. }
  lia.
Qed.

End Returns.

(* ================================================================= *)
(** * The loop of the quiz *)

Section Walks.

Context {IL : IntLimit} {DT : DecimalTable}.
Context {R : Type} {RS : RandomSource R}.

Variables (num_tf num_blank : Z) (scored : list (str * Q)).

Lemma quiz_full_met (w : Walk (R := R)) :
  quiz_full num_tf num_blank w = true <-> quotas_met num_tf num_blank w.
Proof.
  unfold quiz_full, quotas_met.
  rewrite andb_true_iff, !Z.leb_le. reflexivity.
Qed.

(** What a round that returns does to the true/false list. *)
Lemma quiz_round_tf (s : str) (w w' : Walk (R := R)) :
  quiz_round num_tf num_blank scored s w = Some w' ->
  ((Z.of_nat (length (tf_list w)) <? num_tf) = true
   /\ exists item,
       tf_made_from scored s item
       /\ tf_list w' = tf_list w ++ [item])
  \/ ((Z.of_nat (length (tf_list w)) <? num_tf) = false
      /\ tf_list w' = tf_list w /\ rnd_state w' = rnd_state w).
Proof.
  unfold quiz_round.
  destruct (Z.of_nat (length (tf_list w)) <? num_tf).
  - destruct (make_true_false s scored (rnd_state w))
      as [[[[q t] e] r]|] eqn:M; [|discriminate].
    intros H. injection H as <-. left. split; [reflexivity|].
    exists {| tf_statement := q; tf_answer := t; tf_explanation := e |}.
    split; [|reflexivity].
    exists (rnd_state w), r. exact M.
  - intros H. injection H as <-. right. repeat split.
Qed.

(** What a round that returns does to the fill-in-the-blank list. *)
Lemma quiz_round_blank (s : str) (w w' : Walk (R := R)) :
  quiz_round num_tf num_blank scored s w = Some w' ->
  blank_list w'
  = if Z.of_nat (length (blank_list w)) <? num_blank
    then match make_fill_in_blank s scored with
         | Some ((_ :: _) as q, a) =>
           blank_list w ++ [{| blank_question := q; blank_answer := a |}]
         | _ => blank_list w
         end
    else blank_list w.
Proof.
  unfold quiz_round.
  destruct (Z.of_nat (length (tf_list w)) <? num_tf).
  - destruct (make_true_false s scored (rnd_state w))
      as [[[[q t] e] r]|]; [|discriminate].
    intros H. injection H as <-. reflexivity.
  - intros H. injection H as <-. reflexivity.
Qed.

Lemma quiz_round_tf_length (s : str) (w w' : Walk (R := R)) :
  quiz_round num_tf num_blank scored s w = Some w' ->
  Z.of_nat (length (tf_list w'))
  = if Z.of_nat (length (tf_list w)) <? num_tf
    then Z.of_nat (length (tf_list w)) + 1
    else Z.of_nat (length (tf_list w)).
Proof.
  intros H.
  destruct (quiz_round_tf s w w' H) as [[L [item [_ E]]] | [L [E _]]];
    rewrite L, E; [|reflexivity].
  rewrite length_app. simpl length. lia.
Qed.

Lemma quiz_round_blank_length (s : str) (w w' : Walk (R := R)) :
  quiz_round num_tf num_blank scored s w = Some w' ->
  Z.of_nat (length (blank_list w)) <= num_blank ->
  Z.of_nat (length (blank_list w')) <= num_blank.
Proof.
  intros Q H. rewrite (quiz_round_blank s w w' Q).
  destruct (Z.of_nat (length (blank_list w)) <? num_blank) eqn:L;
    [|exact H].
  apply Z.ltb_lt in L.
  destruct (make_fill_in_blank s scored) as [[[|c q] a]|]; try exact H.
  rewrite length_app. simpl length. lia.
Qed.

(** A round returns when the digit runs of the sentence are short. *)
Lemma quiz_round_returns (s : str) (w : Walk (R := R)) :
  numbers_fit s -> exists w', quiz_round num_tf num_blank scored s w = Some w'.
Proof.
  intros F. unfold quiz_round.
  destruct (Z.of_nat (length (tf_list w)) <? num_tf);
    [|eexists; reflexivity].
  destruct (make_true_false_returns s scored (rnd_state w) F)
    as [[[[q t] e] r] M].
  rewrite M. eexists. reflexivity.
Qed.

(** Once both quotas are met, a round calls nothing and changes
    nothing. *)
Lemma quiz_round_full (s : str) (w : Walk (R := R)) :
  quiz_full num_tf num_blank w = true ->
  quiz_round num_tf num_blank scored s w = Some w.
Proof.
  unfold quiz_full, quiz_round. intros H.
  apply andb_true_iff in H. destruct H as [H1 H2].
  apply Z.leb_le in H1. apply Z.leb_le in H2.
  destruct (Z.of_nat (length (tf_list w)) <? num_tf) eqn:E1;
    [apply Z.ltb_lt in E1; lia|].
  destruct (Z.of_nat (length (blank_list w)) <? num_blank) eqn:E2;
    [apply Z.ltb_lt in E2; lia|].
  destruct w; reflexivity.
Qed.

Lemma quiz_walk_lengths (sents : list str) :
  forall (w w' : Walk (R := R)) (rest : list str),
    quiz_walk num_tf num_blank scored sents w = Some (w', rest) ->
    Z.of_nat (length (tf_list w)) <= num_tf ->
    Z.of_nat (length (blank_list w)) <= num_blank ->
    Z.of_nat (length (tf_list w'))
    = Z.min num_tf (Z.of_nat (length (tf_list w)) + Z.of_nat (length sents))
    /\ Z.of_nat (length (blank_list w')) <= num_blank.
Proof.
  induction sents as [|s sents IH]; intros w w' rest W Ht Hb.
  - cbn [quiz_walk] in W. injection W as <- _.
    simpl length. split; [lia | exact Hb].
  - cbn [quiz_walk] in W.
    destruct (quiz_round num_tf num_blank scored s w) as [w1|] eqn:Q;
      [|discriminate].
    pose proof (quiz_round_tf_length s w w1 Q) as Lt.
    pose proof (quiz_round_blank_length s w w1 Q Hb) as Lb.
    assert (Ht1 : Z.of_nat (length (tf_list w1)) <= num_tf).
    { destruct (Z.of_nat (length (tf_list w)) <? num_tf) eqn:L;
        [apply Z.ltb_lt in L|]; lia. }
    cbn [length]. rewrite Nat2Z.inj_succ.
    destruct (quiz_full num_tf num_blank w1) eqn:F.
    + injection W as <- _. apply quiz_full_met in F. destruct F as [F1 _].
      split; [|exact Lb].
      destruct (Z.of_nat (length (tf_list w)) <? num_tf) eqn:L;
        [apply Z.ltb_lt in L|]; lia.
    + destruct (IH w1 w' rest W Ht1 Lb) as [I1 I2]. split; [|exact I2].
      rewrite I1.
      destruct (Z.of_nat (length (tf_list w)) <? num_tf) eqn:L;
        [apply Z.ltb_lt in L | apply Z.ltb_ge in L]; lia.
Qed.

(** The loop visits a prefix of the sentences; it leaves them at the first
    sentence after which both quotas are met, or at the end. *)
Lemma quiz_walk_stop (sents : list str) :
  forall (w w' : Walk (R := R)) (rest : list str),
    quiz_walk num_tf num_blank scored sents w = Some (w', rest) ->
    exists visited,
      sents = visited ++ rest
      /\ rounds num_tf num_blank scored visited w = Some w'
      /\ (rest = [] \/ quotas_met num_tf num_blank w')
      /\ (forall p p' wp,
             visited = p ++ p' -> p <> [] -> p' <> [] ->
             rounds num_tf num_blank scored p w = Some wp ->
             ~ quotas_met num_tf num_blank wp).
Proof.
  induction sents as [|s sents IH]; intros w w' rest W; cbn [quiz_walk] in W.
  - injection W as <- <-. exists [].
    split; [reflexivity|]. split; [reflexivity|]. split; [left; reflexivity|].
    intros [|x p] p' wp H; [congruence | discriminate].
  - destruct (quiz_round num_tf num_blank scored s w) as [w1|] eqn:Q;
      [|discriminate].
    destruct (quiz_full num_tf num_blank w1) eqn:F.
    + injection W as <- <-. exists [s].
      split; [reflexivity|].
      split; [cbn [rounds]; rewrite Q; reflexivity|].
      split; [right; apply quiz_full_met; exact F|].
      intros [|x p] p' wp H Hp Hp'; [congruence|].
      destruct p; destruct p'; try congruence; discriminate.
    + destruct (IH w1 w' rest W) as [visited [H1 [H2 [H3 H4]]]].
      exists (s :: visited).
      split; [cbn [app]; rewrite <- H1; reflexivity|].
      split; [cbn [rounds]; rewrite Q; exact H2|].
      split; [exact H3|].
      intros [|x p] p' wp H Hp Hp' Hr; [congruence|].
      injection H as <- H. cbn [rounds] in Hr. rewrite Q in Hr.
      destruct p as [|y p].
      * cbn [rounds] in Hr. injection Hr as <-.
        intros M. apply quiz_full_met in M. congruence.
      * apply (H4 (y :: p) p' wp); [exact H | discriminate | exact Hp' | exact Hr].
Qed.

(** The loop returns when the digit runs of the sentences are short. *)
Lemma quiz_walk_returns (sents : list str) :
  Forall numbers_fit sents ->
  forall w : Walk (R := R),
  exists r, quiz_walk num_tf num_blank scored sents w = Some r.
Proof.
  induction sents as [|s sents IH]; intros F w; cbn [quiz_walk].
  - eexists; reflexivity.
  - inversion F as [|? ? Fs Fr]; subst.
    destruct (quiz_round_returns s w Fs) as [w1 Q]. rewrite Q.
    destruct (quiz_full num_tf num_blank w1); [eexists; reflexivity|].
    apply IH. exact Fr.
Qed.

End Walks.

(** C4, as the code has it: for counts that are not negative and a text
    whose digit runs are all shorter than the limit of the interpreter on
    the digits of an integer, [generate_quiz] returns a quiz; and of every
    quiz that it returns: there are at most [num_tf] true/false items and
    at most [num_blank] fill-in-the-blank items; the number of true/false
    items is the least of [num_tf] and the number of sentences; and the
    loop has visited the sentences in order up to the first one after
    which both quotas are met, or all of them when there is none. *)
Theorem quiz_quotas
        {IL : IntLimit} {DT : DecimalTable} {R : Type} {RS : RandomSource R}
        (fresh : R) (text : str) (num_tf num_blank : Z) :
  0 <= num_tf -> 0 <= num_blank ->
  (Forall numbers_fit (split_sentences text) ->
   quiz_quotas_stated fresh text num_tf num_blank)
  /\ (forall quiz,
         generate_quiz fresh text num_tf num_blank = Some quiz ->
         quiz_quotas_hold fresh text num_tf num_blank quiz).
Proof.
  intros Ht Hb.
  assert (G : forall quiz,
             generate_quiz fresh text num_tf num_blank = Some quiz ->
             quiz_quotas_hold fresh text num_tf num_blank quiz).
  { intros quiz. unfold generate_quiz, quiz_quotas_hold. cbv zeta.
    set (sents := split_sentences text).
    set (scored := score_tokens text sents).
    set (start := {| tf_list := []; blank_list := []; rnd_state := fresh |}).
    destruct (quiz_walk num_tf num_blank scored sents start)
      as [[w' rest]|] eqn:W; [|discriminate].
    intros H. injection H as <-. cbn [tf blank].
    destruct (quiz_walk_lengths num_tf num_blank scored sents start w' rest W)
      as [L1 L2]; [simpl; lia | simpl; lia |].
    simpl (length (tf_list start)) in L1.
    split; [lia|]. split; [exact L2|]. split; [lia|].
    destruct (quiz_walk_stop num_tf num_blank scored sents start w' rest W)
      as [visited [H1 [H2 [H3 H4]]]].
    exists visited, rest, w'. repeat split; assumption. }
  split; [|exact G].
  intros F. unfold quiz_quotas_stated.
  assert (E : exists quiz,
             generate_quiz fresh text num_tf num_blank = Some quiz).
  { unfold generate_quiz.
    destruct (quiz_walk_returns num_tf num_blank
                (score_tokens text (split_sentences text))
                (split_sentences text) F
                {| tf_list := []; blank_list := []; rnd_state := fresh |})
      as [[w' rest] W].
    rewrite W. eexists. reflexivity. }
  destruct E as [quiz E]. exists quiz. split; [exact E | exact (G quiz E)].
Qed.

(** Three sentences, two true/false items and one fill-in-the-blank item
    asked for: the loop leaves the third sentence. *)
Lemma quiz_quotas_witness :
  quiz_quotas_stated (IL := default_limit) (DT := ascii_decimals)
                     (RS := tape_source) [0; 0; 2]
                     (lit "It was 5 years old. The cat sat. Dogs bark!") 2 1.
Proof.
  apply (quiz_quotas (IL := default_limit) (DT := ascii_decimals)
           (RS := tape_source) [0; 0; 2]
           (lit "It was 5 years old. The cat sat. Dogs bark!") 2 1);
    [lia | lia |].
  vm_compute. repeat constructor.
Defined.

(** C4 as stated fails on a text with a number of 4301 digits, under the
    default limit of 4300: when the number is the one to change, [int]
    raises [ValueError], and [generate_quiz] returns no quiz. *)
Lemma quiz_quotas_counterexample :
  ~ quiz_quotas_stated (IL := default_limit) (DT := ascii_decimals)
                       (RS := tape_source) [0; 0; 2] long_number 3 3.
Proof.
  intros [quiz [H _]]. vm_compute in H. discriminate.
Qed.

(* ================================================================= *)
(** * The random source *)

Section TwoSources.

Context {IL : IntLimit} {DT : DecimalTable}.
Context {R1 R2 : Type} {RS1 : RandomSource R1} {RS2 : RandomSource R2}.

Variable sim : R1 -> R2 -> Prop.
Hypothesis Hsim : same_draws sim.

Lemma make_true_false_sim (sent : str) (scored : list (str * Q))
      (r1 : R1) (r2 : R2) :
  sim r1 r2 ->
  option_rel (fun x y => fst x = fst y /\ sim (snd x) (snd y))
             (make_true_false sent scored r1)
             (make_true_false sent scored r2).
Proof.
  intros H. destruct Hsim as [H53 Hbelow]. unfold make_true_false.
  destruct (findall_digits sent) as [|n0 ns];
    [split; [reflexivity | exact H]|].
  unfold random_below_0_6.
  destruct (H53 _ _ H) as [E1 S1].
  destruct (random53 r1) as [k1 a1], (random53 r2) as [k2 a2].
  cbn [fst snd] in E1, S1. subst k2.
  destruct (k1 <? 5404319552844595); [|split; [reflexivity | exact S1]].
  unfold choice.
  destruct (Hbelow (Z.of_nat (length (n0 :: ns))) _ _ S1) as [E2 S2].
  destruct (randbelow (Z.of_nat (length (n0 :: ns))) a1) as [i1 b1],
           (randbelow (Z.of_nat (length (n0 :: ns))) a2) as [i2 b2].
  cbn [fst snd] in E2, S2. subst i2.
  destruct (int_of (nth (Z.to_nat i1) (n0 :: ns) n0)) as [v|];
    [|exact I].
  unfold randint.
  destruct (Hbelow (10 - 1 + 1) _ _ S2) as [E3 S3].
  destruct (randbelow (10 - 1 + 1) b1) as [j1 c1],
           (randbelow (10 - 1 + 1) b2) as [j2 c2].
  cbn [fst snd] in E3, S3. subst j2.
  destruct (of_Z (v + (1 + j1))) as [new_n|]; [|exact I].
  split; [reflexivity | exact S3].
Qed.

Lemma quiz_round_sim (num_tf num_blank : Z) (scored : list (str * Q))
      (s : str) (w1 : Walk (R := R1)) (w2 : Walk (R := R2)) :
  walk_sim sim w1 w2 ->
  option_rel (walk_sim sim)
             (quiz_round num_tf num_blank scored s w1)
             (quiz_round num_tf num_blank scored s w2).
Proof.
  intros [Ht [Hb Hr]]. unfold quiz_round. rewrite Ht, Hb.
  pose proof (make_true_false_sim s scored _ _ Hr) as M.
  destruct (Z.of_nat (length (tf_list w2)) <? num_tf).
  - destruct (make_true_false s scored (rnd_state w1))
      as [[[[q1 t1] e1] r1]|],
             (make_true_false s scored (rnd_state w2))
      as [[[[q2 t2] e2] r2]|]; cbn [option_rel fst snd] in M;
      try contradiction; try exact I.
    destruct M as [E S]. injection E as -> -> ->.
    split; [reflexivity | split; [reflexivity | exact S]].
  - split; [reflexivity | split; [reflexivity | exact Hr]].
Qed.

Lemma quiz_full_sim (num_tf num_blank : Z)
      (w1 : Walk (R := R1)) (w2 : Walk (R := R2)) :
  walk_sim sim w1 w2 ->
  quiz_full num_tf num_blank w1 = quiz_full num_tf num_blank w2.
Proof. intros [Ht [Hb _]]. unfold quiz_full. rewrite Ht, Hb. reflexivity. Qed.

Lemma quiz_walk_sim (num_tf num_blank : Z) (scored : list (str * Q))
      (sents : list str) (w1 : Walk (R := R1)) (w2 : Walk (R := R2)) :
  walk_sim sim w1 w2 ->
  option_rel (fun x y => walk_sim sim (fst x) (fst y) /\ snd x = snd y)
             (quiz_walk num_tf num_blank scored sents w1)
             (quiz_walk num_tf num_blank scored sents w2).
Proof.
  revert w1 w2. induction sents as [|s sents IH]; intros w1 w2 H.
  - split; [exact H | reflexivity].
  - cbn [quiz_walk].
    pose proof (quiz_round_sim num_tf num_blank scored s _ _ H) as H1.
    destruct (quiz_round num_tf num_blank scored s w1) as [x1|],
             (quiz_round num_tf num_blank scored s w2) as [x2|];
      cbn [option_rel] in H1; try contradiction; try exact I.
    rewrite (quiz_full_sim num_tf num_blank _ _ H1).
    destruct (quiz_full num_tf num_blank x2).
    + split; [exact H1 | reflexivity].
    + apply IH. exact H1.
Qed.

End TwoSources.

(** C8, as the code has it: [generate_quiz] has no parameter for the random
    source; it makes a new one at each call.  When the sources of two calls
    with the same text and the same counts give the same draws, the two
    calls end alike: with the same quiz, or both with the error. *)
Theorem quiz_same_draws
        {IL : IntLimit} {DT : DecimalTable} {R1 R2 : Type}
        {RS1 : RandomSource R1} {RS2 : RandomSource R2}
        (sim : R1 -> R2 -> Prop) (fresh1 : R1) (fresh2 : R2)
        (text : str) (num_tf num_blank : Z) :
  same_draws sim -> sim fresh1 fresh2 ->
  generate_quiz fresh1 text num_tf num_blank
  = generate_quiz fresh2 text num_tf num_blank.
Proof.
  intros Hd Hs. unfold generate_quiz.
  set (sents := split_sentences text).
  set (scored := score_tokens text sents).
  assert (S0 : walk_sim sim
                 {| tf_list := []; blank_list := []; rnd_state := fresh1 |}
                 {| tf_list := []; blank_list := []; rnd_state := fresh2 |})
    by (split; [reflexivity | split; [reflexivity | exact Hs]]).
  pose proof (quiz_walk_sim sim Hd num_tf num_blank scored sents _ _ S0)
    as W.
  destruct (quiz_walk num_tf num_blank scored sents
              {| tf_list := []; blank_list := []; rnd_state := fresh1 |})
    as [[w1 rest1]|],
           (quiz_walk num_tf num_blank scored sents
              {| tf_list := []; blank_list := []; rnd_state := fresh2 |})
    as [[w2 rest2]|]; cbn [option_rel fst snd] in W;
    try contradiction; [|reflexivity].
  destruct W as [[Ht [Hb _]] _]. rewrite Ht, Hb. reflexivity.
Qed.

(** The same tape twice. *)
Lemma quiz_same_draws_witness :
  generate_quiz (IL := default_limit) (DT := ascii_decimals)
                (RS := tape_source) [0; 0; 2]
                (lit "It was 5 years old.") 3 3
  = generate_quiz (IL := default_limit) (DT := ascii_decimals)
                  (RS := tape_source) [0; 0; 2]
                  (lit "It was 5 years old.") 3 3.
Proof.
  apply (quiz_same_draws (IL := default_limit) (DT := ascii_decimals)
           (RS1 := tape_source) (RS2 := tape_source) eq).
  - split; [intros r1 r2 -> | intros n r1 r2 ->]; split; reflexivity.
  - reflexivity.
Defined.

(** C8 as stated fails: two calls of [generate_quiz] with the same text and
    the same counts, whose new sources are in different states, return
    different quizzes. *)
Lemma quiz_same_draws_counterexample :
  generate_quiz (IL := default_limit) (DT := ascii_decimals)
                (RS := tape_source) [0; 0; 2]
                (lit "It was 5 years old.") 3 3
  <> generate_quiz (IL := default_limit) (DT := ascii_decimals)
                   (RS := tape_source) [9007199254740991]
                   (lit "It was 5 years old.") 3 3.
Proof. vm_compute. discriminate. Qed.

(* ================================================================= *)
(** * Further properties of the tokens *)

Lemma finditer_weave (pat : str -> option (str * str)) :
  productive pat ->
  forall (fuel : nat) (s : str),
    (length s <= fuel)%nat ->
    exists gaps,
      length gaps = S (length (finditer pat fuel s))
      /\ weave gaps (finditer pat fuel s) = s.
Proof.
  intros Hprod. induction fuel as [|f IH]; intros s Hs.
  - destruct s; [|simpl in Hs; lia]. exists [[]]. split; reflexivity.
  - destruct s as [|c s]; [exists [[]]; split; reflexivity|].
    cbn [finditer]. destruct (pat (c :: s)) as [[t rest]|] eqn:P.
    + destruct (Hprod _ _ _ P) as [E Hne].
      assert (Hl : (length rest <= f)%nat).
      { apply (f_equal (@length char)) in E. rewrite length_app in E.
        destruct t; [congruence|]. simpl in *. lia. }
      destruct (IH rest Hl) as [gaps [G1 G2]].
      exists ([] :: gaps). split; [simpl; lia|].
      cbn [weave]. rewrite G2. simpl. symmetry. exact E.
    + simpl in Hs.
      destruct (IH s ltac:(lia)) as [gaps [G1 G2]].
      destruct gaps as [|g gs]; [discriminate|].
      exists ((c :: g) :: gs). split; [exact G1|].
      destruct (finditer pat f s); cbn [weave] in *;
        rewrite <- G2; reflexivity.
Qed.

(** The tokens are pieces of the text that are not empty, come in the order
    of the text and do not overlap: the text is the tokens with a gap
    before, between and after them. *)
Theorem tokenize_weave (s : str) :
  Forall (fun t => t <> []) (tokenize s)
  /\ exists gaps,
      length gaps = S (length (tokenize s))
      /\ weave gaps (tokenize s) = s.
Proof.
  split.
  - apply Forall_forall. intros t H. apply (tokenize_substring s t H).
  - apply finditer_weave;
      [exact TokenFacts.WORD_PATTERN_productive | apply Nat.le_refl].
Qed.

(* ================================================================= *)
(** * Further properties of the fill-in-the-blank generator *)

Lemma first_target_head (sent : str) (c : str) (cs : list str) :
  In c (tokenize sent) ->
  first_target sent (c :: cs) = Some (replace_first c BLANK sent, c).
Proof.
  intros Hc. cbn [first_target].
  destruct (tokenize_substring _ _ Hc) as [_ [pre [post Hs]]].
  assert (C : contains c sent = true)
    by (rewrite Hs; apply StrFacts.contains_substring).
  rewrite C. reflexivity.
Qed.

(** The loop over the candidates returns at the first one: every candidate
    is a token, and a token occurs in its sentence. *)
Theorem make_fill_in_blank_first_candidate
        (sent : str) (scored : list (str * Q)) :
  make_fill_in_blank sent scored
  = match candidates_of sent with
    | [] => None
    | target :: _ => Some (replace_first target BLANK sent, target)
    end.
Proof.
  rewrite make_fill_in_blank_candidates.
  destruct (candidates_of sent) as [|c cs] eqn:E; [reflexivity|].
  apply first_target_head. apply candidates_of_tokens.
  rewrite E. left. reflexivity.
Qed.

(** The question is as long as the sentence with the answer taken out and
    the four underscores put in, and it contains the marker. *)
Theorem make_fill_in_blank_length
        (sent : str) (scored : list (str * Q)) (q a : str) :
  make_fill_in_blank sent scored = Some (q, a) ->
  len q = len sent - len a + 4
  /\ 1 <= len a
  /\ contains BLANK q = true.
Proof.
  intros H.
  destruct (make_fill_in_blank_Some _ _ _ _ H) as [Hin [pre [post [Hs Hq]]]].
  destruct (tokenize_substring _ _ Hin) as [Hne _].
  subst q. split; [|split].
  - rewrite Hs. unfold len. rewrite !length_app, BLANK_eq. simpl length. lia.
  - unfold len. destruct a; [congruence | simpl; lia].
  - apply StrFacts.contains_substring.
Qed.

Lemma make_fill_in_blank_length_witness :
  len (lit "the ____ sat.") = len (lit "the cat sat.") - len (lit "cat") + 4
  /\ 1 <= len (lit "cat")
  /\ contains BLANK (lit "the ____ sat.") = true.
Proof.
  apply (make_fill_in_blank_length (lit "the cat sat.") []
           (lit "the ____ sat.") (lit "cat")).
  reflexivity.
Defined.

(* ================================================================= *)
(** * Further properties of the true/false generator *)

Section Truth.

Context {IL : IntLimit} {DT : DecimalTable}.
Context {R : Type} {RS : RandomSource R}.

(** The digits written for a greater number are not the digits read. *)
Lemma changed_number_differs (n new_n : str) (v k : Z) :
  forallb isdecimal n = true -> int_of n = Some v -> 1 <= k ->
  of_Z (v + k) = Some new_n -> new_n <> n.
Proof.
  intros Hd Hv Hk Hn E. subst new_n.
  assert (V : 0 <= v).
  { unfold int_of in Hv. destruct (exceeds_limit (len n)); [discriminate|].
    injection Hv as <-. apply (digits_value_range n Hd). }
  pose proof (int_of_of_Z (v + k) n ltac:(lia) Hn) as H.
  rewrite Hv in H. injection H as H. lia.
Qed.

(** What a call that draws a number below 0.6 for a sentence with digits
    returns. *)
Lemma make_true_false_cases (sent : str) (scored : list (str * Q))
      (rnd : R) (st : str) (ans : bool) (expl : str) (rnd' : R) :
  make_true_false sent scored rnd = Some ((st, ans, expl), rnd') ->
  (ans = true /\ st = sent /\ expl = lit "원문: '" ++ sent ++ lit "'")
  \/ (ans = false
      /\ exists n new_n v k,
          In n (findall_digits sent)
          /\ int_of n = Some v /\ 1 <= k <= 10
          /\ of_Z (v + k) = Some new_n
          /\ st = replace_first n new_n sent
          /\ expl = (lit "원문: '" ++ sent ++ lit "'")
                    ++ lit " -> 숫자 변경 " ++ n ++ lit "→" ++ new_n).
Proof.
  unfold make_true_false.
  destruct (findall_digits sent) as [|n0 ns] eqn:E.
  - intros H. left. repeat split; congruence.
  - destruct (random_below_0_6 rnd) as [below rnd1].
    destruct below; [|intros H; left; repeat split; congruence].
    destruct (choice (n0 :: ns) n0 rnd1) as [n rnd2] eqn:Ec.
    destruct (int_of n) as [v|] eqn:Ev; [|discriminate].
    destruct (randint 1 10 rnd2) as [k rnd3] eqn:Er.
    destruct (of_Z (v + k)) as [new_n|] eqn:En; [|discriminate].
    intros H. right. split; [congruence|].
    exists n, new_n, v, k.
    assert (Hin : In n (n0 :: ns)).
    { pose proof (choice_In (n0 :: ns) n0 rnd1 (or_introl eq_refl)) as Hc.
      rewrite Ec in Hc. exact Hc. }
    assert (Hk : 1 <= k <= 10).
    { pose proof (randint_range 1 10 rnd2 ltac:(lia)) as Hr.
      rewrite Er in Hr. exact Hr. }
    split; [exact Hin|]. split; [exact Ev|]. split; [exact Hk|].
    split; [exact En|]. split; congruence.
Qed.

(** The answer is true exactly when the statement is the sentence: a
    change of a number always changes the sentence. *)
Theorem make_true_false_truth
        (sent : str) (scored : list (str * Q)) (rnd : R)
        (st : str) (ans : bool) (expl : str) (rnd' : R) :
  make_true_false sent scored rnd = Some ((st, ans, expl), rnd') ->
  (ans = true <-> st = sent).
Proof.
  intros H.
  destruct (make_true_false_cases _ _ _ _ _ _ _ H)
    as [[-> [-> _]] | [-> [n [new_n [v [k [Hin [Hv [Hk [Hn [Hs _]]]]]]]]]]];
    [tauto|].
  split; [discriminate|]. intros E. exfalso.
  destruct (findall_digits_decimal _ _ Hin) as [_ Hd].
  unfold findall_digits in Hin.
  destruct (finditer_substring _ (match_run_productive isdecimal) _ _ _ Hin)
    as [_ [pre [post Hp]]].
  assert (C : contains n sent = true)
    by (rewrite Hp; apply StrFacts.contains_substring).
  destruct (StrFacts.contains_split _ _ C) as [pre' [post' [Hs' Hr]]].
  rewrite Hs, Hr in E. rewrite Hs' in E.
  apply app_inv_head in E. apply app_inv_tail in E.
  apply (changed_number_differs n new_n v k Hd Hv); [lia | exact Hn | exact E].
Qed.

(** A sentence without a digit is left as it is, with the answer true, and
    no number is drawn. *)
Theorem make_true_false_without_digits
        (sent : str) (scored : list (str * Q)) (rnd : R) :
  forallb (fun c => negb (isdecimal c)) sent = true ->
  make_true_false sent scored rnd
  = Some ((sent, true, lit "원문: '" ++ sent ++ lit "'"), rnd).
Proof.
  intros H. unfold make_true_false.
  destruct (findall_digits sent) as [|n0 ns] eqn:E; [reflexivity|].
  exfalso.
  assert (Hin : In n0 (findall_digits sent)) by (rewrite E; left; reflexivity).
  destruct (findall_digits_decimal _ _ Hin) as [Hne Hd].
  unfold findall_digits in Hin.
  destruct (finditer_substring _ (match_run_productive isdecimal) _ _ _ Hin)
    as [_ [pre [post Hs]]].
  destruct n0 as [|c n0]; [congruence|].
  cbn [forallb] in Hd. apply andb_true_iff in Hd. destruct Hd as [Hc _].
  rewrite forallb_forall in H.
  assert (Hi : In c sent).
  { rewrite Hs. apply in_or_app. right. left. reflexivity. }
  apply H in Hi. rewrite Hc in Hi. discriminate.
Qed.

(** The explanation always starts with the sentence as it was, between
    quotes, whether a number was changed or not. *)
Theorem make_true_false_explanation
        (sent : str) (scored : list (str * Q)) (rnd : R)
        (st : str) (ans : bool) (expl : str) (rnd' : R) :
  make_true_false sent scored rnd = Some ((st, ans, expl), rnd') ->
  startswith (lit "원문: '" ++ sent ++ lit "'") expl = true.
Proof.
  intros H.
  destruct (make_true_false_cases _ _ _ _ _ _ _ H)
    as [[_ [_ ->]] | [_ [n [new_n [v [k [_ [_ [_ [_ [_ ->]]]]]]]]]]].
  - rewrite <- (app_nil_r (lit "원문: '" ++ sent ++ lit "'")) at 2.
    apply StrFacts.startswith_app.
  - apply StrFacts.startswith_app.
Qed.

End Truth.

Lemma make_true_false_truth_witness :
  false = true <-> lit "It was 8 years old." = lit "It was 5 years old.".
Proof.
  apply (make_true_false_truth
           (IL := default_limit) (DT := ascii_decimals) (RS := tape_source)
           (lit "It was 5 years old.") [] [0; 0; 2]
           (lit "It was 8 years old.") false
           (lit "원문: 'It was 5 years old.' -> 숫자 변경 5→8") []).
  reflexivity.
Defined.

Lemma make_true_false_without_digits_witness :
  make_true_false (IL := default_limit) (DT := ascii_decimals)
                  (RS := tape_source) (lit "Dogs bark!") [] [7]
  = Some ((lit "Dogs bark!", true,
           lit "원문: '" ++ lit "Dogs bark!" ++ lit "'"),
          [7]).
Proof.
  apply (make_true_false_without_digits
           (IL := default_limit) (DT := ascii_decimals) (RS := tape_source)
           (lit "Dogs bark!") [] [7]).
  reflexivity.
Defined.

Lemma make_true_false_explanation_witness :
  startswith (lit "원문: '" ++ lit "It was 5 years old." ++ lit "'")
             (lit "원문: 'It was 5 years old.' -> 숫자 변경 5→8") = true.
Proof.
  apply (make_true_false_explanation
           (IL := default_limit) (DT := ascii_decimals) (RS := tape_source)
           (lit "It was 5 years old.") [] [0; 0; 2]
           (lit "It was 8 years old.") false
           (lit "원문: 'It was 5 years old.' -> 숫자 변경 5→8") []).
  reflexivity.
Defined.

(* ================================================================= *)
(** * Further properties of the loop of the quiz *)

Section Loop.

Context {IL : IntLimit} {DT : DecimalTable}.
Context {R : Type} {RS : RandomSource R}.

Variables (num_tf num_blank : Z) (scored : list (str * Q)).

Lemma rounds_full (sents : list str) (w : Walk (R := R)) :
  quiz_full num_tf num_blank w = true ->
  rounds num_tf num_blank scored sents w = Some w.
Proof.
  induction sents as [|s sents IH]; intros H; [reflexivity|].
  cbn [rounds].
  rewrite (quiz_round_full num_tf num_blank scored s w H). apply IH. exact H.
Qed.

Lemma quiz_walk_rounds (sents : list str) (w : Walk (R := R)) :
  option_map fst (quiz_walk num_tf num_blank scored sents w)
  = rounds num_tf num_blank scored sents w.
Proof.
  revert w. induction sents as [|s sents IH]; intros w; [reflexivity|].
  cbn [quiz_walk rounds].
  destruct (quiz_round num_tf num_blank scored s w) as [w1|]; [|reflexivity].
  destruct (quiz_full num_tf num_blank w1) eqn:F.
  - cbn [option_map fst]. symmetry. apply rounds_full. exact F.
  - apply IH.
Qed.

(** The fill-in-the-blank items after the rounds on [sents] are the items
    before, followed by items made from sentences of [sents]. *)
Lemma rounds_blank_from (sents : list str) :
  forall w w' : Walk (R := R),
    rounds num_tf num_blank scored sents w = Some w' ->
    exists more,
      blank_list w' = blank_list w ++ more
      /\ Forall (fun b => exists s,
                     In s sents
                     /\ make_fill_in_blank s scored
                        = Some (blank_question b, blank_answer b)) more.
Proof.
  induction sents as [|s sents IH]; intros w w' H; cbn [rounds] in H.
  - injection H as <-. exists [].
    split; [symmetry; apply app_nil_r | constructor].
  - destruct (quiz_round num_tf num_blank scored s w) as [w1|] eqn:Q;
      [|discriminate].
    destruct (IH w1 w' H) as [more [E F]].
    rewrite E, (quiz_round_blank num_tf num_blank scored s w w1 Q).
    assert (F' : Forall (fun b => exists s0,
                           In s0 (s :: sents)
                           /\ make_fill_in_blank s0 scored
                              = Some (blank_question b, blank_answer b))
                        more).
    { eapply Forall_impl; [|exact F].
      intros b [s0 [H1 H2]]. exists s0. split; [right; exact H1 | exact H2]. }
    destruct (Z.of_nat (length (blank_list w)) <? num_blank);
      [|exists more; split; [reflexivity | exact F']].
    destruct (make_fill_in_blank s scored) as [[[|c q] a]|] eqn:M;
      try (exists more; split; [reflexivity | exact F']).
    exists ({| blank_question := c :: q; blank_answer := a |} :: more).
    split; [rewrite <- app_assoc; reflexivity|].
    constructor; [|exact F'].
    exists s. split; [left; reflexivity | exact M].
Qed.

End Loop.

Lemma generate_quiz_rounds
      {IL : IntLimit} {DT : DecimalTable} {R : Type} {RS : RandomSource R}
      (fresh : R) (text : str) (num_tf num_blank : Z) :
  generate_quiz fresh text num_tf num_blank
  = option_map (fun w => {| tf := tf_list w; blank := blank_list w |})
      (rounds num_tf num_blank
              (score_tokens text (split_sentences text))
              (split_sentences text)
              {| tf_list := []; blank_list := []; rnd_state := fresh |}).
Proof.
  unfold generate_quiz. rewrite <- quiz_walk_rounds.
  destruct (quiz_walk num_tf num_blank _ _ _) as [[w' rest]|]; reflexivity.
Qed.

(** The [break] of the loop only saves work: the call ends as the rounds on
    all the sentences do, with the quiz that they give or with their
    error. *)
Theorem generate_quiz_all_rounds
        {IL : IntLimit} {DT : DecimalTable} {R : Type} {RS : RandomSource R}
        (fresh : R) (text : str) (num_tf num_blank : Z) :
  let sents := split_sentences text in
  generate_quiz fresh text num_tf num_blank
  = match rounds num_tf num_blank (score_tokens text sents) sents
                 {| tf_list := []; blank_list := []; rnd_state := fresh |}
    with
    | Some w => Some {| tf := tf_list w; blank := blank_list w |}
    | None => None
    end.
Proof. cbv zeta. rewrite generate_quiz_rounds. reflexivity. Qed.

(** Every fill-in-the-blank item of the quiz is what [make_fill_in_blank]
    returns for one of the sentences of the text; its answer is a token of
    that sentence. *)
Theorem generate_quiz_blank_items
        {IL : IntLimit} {DT : DecimalTable} {R : Type} {RS : RandomSource R}
        (fresh : R) (text : str) (num_tf num_blank : Z) (quiz : Quiz) :
  generate_quiz fresh text num_tf num_blank = Some quiz ->
  Forall (fun b => exists s,
              In s (split_sentences text)
              /\ make_fill_in_blank
                   s (score_tokens text (split_sentences text))
                 = Some (blank_question b, blank_answer b)
              /\ In (blank_answer b) (tokenize s))
         (blank quiz).
Proof.
  rewrite generate_quiz_rounds.
  destruct (rounds num_tf num_blank _ _ _) as [w'|] eqn:W; [|discriminate].
  intros H. injection H as <-. cbn [blank].
  destruct (rounds_blank_from num_tf num_blank _ _ _ _ W) as [more [E F]].
  rewrite E. cbn [blank_list app].
  eapply Forall_impl; [|exact F].
  intros b [s [H1 H2]]. exists s. split; [exact H1|]. split; [exact H2|].
  apply (make_fill_in_blank_Some _ _ _ _ H2).
Qed.

Lemma generate_quiz_blank_items_witness :
  Forall (fun b => exists s,
              In s (split_sentences (lit "It was 5 years old."))
              /\ make_fill_in_blank
                   s (score_tokens (lit "It was 5 years old.")
                        (split_sentences (lit "It was 5 years old.")))
                 = Some (blank_question b, blank_answer b)
              /\ In (blank_answer b) (tokenize s))
         (blank (sample_quiz [0; 0; 2] (lit "It was 5 years old."))).
Proof.
  apply (generate_quiz_blank_items
           (IL := default_limit) (DT := ascii_decimals) (RS := tape_source)
           [0; 0; 2] (lit "It was 5 years old.") 3 3).
  reflexivity.
Defined.

Section Shape.

Context {IL : IntLimit} {DT : DecimalTable}.
Context {R1 R2 : Type} {RS1 : RandomSource R1} {RS2 : RandomSource R2}.

Variables (num_tf num_blank : Z) (scored : list (str * Q)).

Lemma quiz_round_shape (s : str)
      (w1 x1 : Walk (R := R1)) (w2 x2 : Walk (R := R2)) :
  quiz_round num_tf num_blank scored s w1 = Some x1 ->
  quiz_round num_tf num_blank scored s w2 = Some x2 ->
  walk_shape w1 w2 -> walk_shape x1 x2.
Proof.
  intros Q1 Q2 [Ht Hb]. split.
  - apply Nat2Z.inj.
    rewrite (quiz_round_tf_length num_tf num_blank scored s w1 x1 Q1),
            (quiz_round_tf_length num_tf num_blank scored s w2 x2 Q2), Ht.
    reflexivity.
  - rewrite (quiz_round_blank num_tf num_blank scored s w1 x1 Q1),
            (quiz_round_blank num_tf num_blank scored s w2 x2 Q2), Hb.
    reflexivity.
Qed.

Lemma rounds_shape (sents : list str) :
  forall (w1 x1 : Walk (R := R1)) (w2 x2 : Walk (R := R2)),
    rounds num_tf num_blank scored sents w1 = Some x1 ->
    rounds num_tf num_blank scored sents w2 = Some x2 ->
    walk_shape w1 w2 -> walk_shape x1 x2.
Proof.
  induction sents as [|s sents IH]; intros w1 x1 w2 x2 H1 H2 H;
    cbn [rounds] in H1, H2.
  - injection H1 as <-. injection H2 as <-. exact H.
  - destruct (quiz_round num_tf num_blank scored s w1) as [y1|] eqn:Q1;
      [|discriminate].
    destruct (quiz_round num_tf num_blank scored s w2) as [y2|] eqn:Q2;
      [|discriminate].
    apply (IH y1 x1 y2 x2 H1 H2).
    exact (quiz_round_shape s w1 y1 w2 y2 Q1 Q2 H).
Qed.

End Shape.

(** The random source has no part in the fill-in-the-blank items, nor in
    the number of true/false items: they are the same in the quizzes that
    two calls with any two sources return. *)
Theorem generate_quiz_source_free
        {IL : IntLimit} {DT : DecimalTable} {R1 R2 : Type}
        {RS1 : RandomSource R1} {RS2 : RandomSource R2}
        (fresh1 : R1) (fresh2 : R2) (text : str) (num_tf num_blank : Z)
        (quiz1 quiz2 : Quiz) :
  generate_quiz fresh1 text num_tf num_blank = Some quiz1 ->
  generate_quiz fresh2 text num_tf num_blank = Some quiz2 ->
  blank quiz1 = blank quiz2
  /\ length (tf quiz1) = length (tf quiz2).
Proof.
  rewrite !generate_quiz_rounds.
  destruct (rounds num_tf num_blank _ _
              {| tf_list := []; blank_list := []; rnd_state := fresh1 |})
    as [x1|] eqn:W1; [|discriminate].
  destruct (rounds num_tf num_blank _ _
              {| tf_list := []; blank_list := []; rnd_state := fresh2 |})
    as [x2|] eqn:W2; [|discriminate].
  intros H1 H2. injection H1 as <-. injection H2 as <-. cbn [tf blank].
  destruct (rounds_shape num_tf num_blank _ _ _ _ _ _ W1 W2) as [Ht Hb];
    [split; reflexivity|].
  split; [exact Hb | exact Ht].
Qed.

(** A source that changes the number and one that does not. *)
Lemma generate_quiz_source_free_witness :
  blank (sample_quiz [0; 0; 2] (lit "It was 5 years old."))
  = blank (sample_quiz [9007199254740991] (lit "It was 5 years old."))
  /\ length (tf (sample_quiz [0; 0; 2] (lit "It was 5 years old.")))
     = length (tf (sample_quiz [9007199254740991]
                               (lit "It was 5 years old."))).
Proof.
  apply (generate_quiz_source_free
           (IL := default_limit) (DT := ascii_decimals)
           (RS1 := tape_source) (RS2 := tape_source)
           [0; 0; 2] [9007199254740991] (lit "It was 5 years old.") 3 3);
    reflexivity.
Defined.

(* ================================================================= *)
(** * Discussion topics *)

Lemma fold_left_snoc_map {A B : Type} (f : A -> B) (l : list A)
      (acc : list B) :
  fold_left (fun acc x => acc ++ [f x]) l acc = acc ++ map f l.
Proof.
  revert acc. induction l as [|x l IH]; intros acc; simpl.
  - rewrite app_nil_r. reflexivity.
  - rewrite IH, <- app_assoc. reflexivity.
Qed.

(** There is one topic for each of the sentences [sents[:num]], in their
    order, with the sentence between quotes; their number is the least of
    [num] and the number of sentences, and for a negative [num] the number
    of sentences without the last [-num]. *)
Theorem generate_discussion_topics_spec (text : str) (num : Z) :
  let sents := split_sentences text in
  let n := Z.of_nat (length sents) in
  generate_discussion_topics text num
  = map (fun s =>
           lit "'" ++ s
               ++ lit "'의 핵심 의미와 사회적/역사적 영향을 토론하시오.")
        (slice_to sents num)
  /\ Z.of_nat (length (generate_discussion_topics text num))
     = (if num <? 0 then Z.max 0 (n + num) else Z.min num n).
Proof.
  cbv zeta. unfold generate_discussion_topics.
  rewrite fold_left_snoc_map. cbn [app]. split; [reflexivity|].
  rewrite length_map. unfold slice_to.
  destruct (num <? 0) eqn:E; rewrite length_firstn.
  - apply Z.ltb_lt in E. lia.
  - apply Z.ltb_ge in E. lia.
Qed.

(* ================================================================= *)
(** * Output format *)

Lemma fold_left_out {A : Type} (f : str -> A -> str) (g : A -> str) :
  (forall out it, f out it = out ++ g it) ->
  forall (l : list A) (out : str),
    fold_left f l out = out ++ concat (map g l).
Proof.
  intros H. induction l as [|x l IH]; intros out; simpl.
  - rewrite app_nil_r. reflexivity.
  - rewrite IH, H, <- app_assoc. reflexivity.
Qed.

Lemma format_output_unfold (discussions : list str) (quiz : Quiz)
      (show_discussion show_tf show_blank : bool) :
  format_output discussions quiz show_discussion show_tf show_blank
  = (if show_discussion && truthy discussions
     then discussion_section discussions else [])
    ++ (if show_tf && truthy (tf quiz) then tf_section (tf quiz) else [])
    ++ (if show_blank && truthy (blank quiz)
        then blank_section (blank quiz) else []).
Proof.
  unfold format_output, discussion_section, tf_section, blank_section.
  cbv zeta.
  rewrite (fold_left_out
             (fun out it => out ++ of_index (fst it) ++ lit ") " ++ snd it ++ NL)
             (fun it => of_index (fst it) ++ lit ") " ++ snd it ++ NL))
    by reflexivity.
  destruct (show_discussion && truthy discussions);
    destruct (show_tf && truthy (tf quiz));
    destruct (show_blank && truthy (blank quiz));
    repeat (rewrite (fold_left_out _
               (fun it : Z * TrueFalse =>
                  (of_index (fst it) ++ lit ") " ++ tf_statement (snd it) ++ NL)
                  ++ (lit "   정답: "
                      ++ (if tf_answer (snd it)
                          then lit "O(참)" else lit "X(거짓)")
                      ++ NL)
                  ++ lit "   해설: " ++ tf_explanation (snd it) ++ NL))
              by (intros; rewrite <- !app_assoc; reflexivity));
    repeat (rewrite (fold_left_out _
               (fun it : Z * FillBlank =>
                  (of_index (fst it) ++ lit ") " ++ blank_question (snd it)
                        ++ NL)
                  ++ lit "   정답: " ++ blank_answer (snd it) ++ NL))
              by (intros; rewrite <- !app_assoc; reflexivity));
    rewrite ?app_nil_r; cbn [app]; rewrite <- ?app_assoc; reflexivity.
Qed.

(** The three sections are written one after the other and do not depend
    on each other: the document is the document of the discussion topics,
    then the one of the true/false items, then the one of the
    fill-in-the-blank items. *)
Theorem format_output_sections (discussions : list str) (quiz : Quiz)
        (show_discussion show_tf show_blank : bool) :
  format_output discussions quiz show_discussion show_tf show_blank
  = format_output discussions quiz show_discussion false false
    ++ format_output discussions quiz false show_tf false
    ++ format_output discussions quiz false false show_blank.
Proof.
  rewrite !format_output_unfold. cbn [andb].
  rewrite ?app_nil_r. cbn [app]. reflexivity.
Qed.

Lemma section_nonempty (h : string) (rest : str) :
  lit h <> [] -> lit h ++ rest <> [].
Proof. destruct (lit h); [congruence | discriminate]. Qed.

(** The document is empty exactly when no section is written: a section
    that is asked for and has an item is not empty. *)
Theorem format_output_empty (discussions : list str) (quiz : Quiz)
        (show_discussion show_tf show_blank : bool) :
  format_output discussions quiz show_discussion show_tf show_blank = []
  <-> show_discussion && truthy discussions = false
      /\ show_tf && truthy (tf quiz) = false
      /\ show_blank && truthy (blank quiz) = false.
Proof.
  rewrite format_output_unfold. split.
  - intros H.
    apply app_eq_nil in H. destruct H as [H1 H].
    apply app_eq_nil in H. destruct H as [H2 H3].
    repeat split.
    + destruct (show_discussion && truthy discussions); [|reflexivity].
      exfalso. revert H1. apply section_nonempty. discriminate.
    + destruct (show_tf && truthy (tf quiz)); [|reflexivity].
      exfalso. revert H2. apply section_nonempty. discriminate.
    + destruct (show_blank && truthy (blank quiz)); [|reflexivity].
      exfalso. revert H3. apply section_nonempty. discriminate.
  - intros [-> [-> ->]]. reflexivity.
Qed.

(** The items of a list are numbered from [start] on, one by one. *)
Theorem enumerate_numbers {A : Type} (l : list A) (start : Z) :
  map snd (enumerate start l) = l
  /\ map fst (enumerate start l)
     = map (fun i => start + Z.of_nat i) (seq 0 (length l)).
Proof.
  revert start. induction l as [|x l IH]; intros start; [split; reflexivity|].
  destruct (IH (start + 1)) as [I1 I2]. cbn [enumerate map length seq].
  rewrite I1, I2. split; [reflexivity|].
  rewrite Z.add_0_r. f_equal.
  rewrite <- seq_shift, map_map. apply map_ext. intros i. lia.
Qed.

(* ================================================================= *)
(** * Entry point *)

(** When none of the three categories is selected, the document is empty,
    whatever the text is; the quiz is made all the same, so that the call
    ends with the empty document when [generate_quiz] returns, and with its
    error when it raises. *)
Theorem generate_all_nothing_selected
        {IL : IntLimit} {DT : DecimalTable} {R : Type} {RS : RandomSource R}
        (fresh : R) (text : str) (types : list str)
        (num_discussion num_tf num_blank : Z) :
  mem (lit "토론 주제") types = false ->
  mem (lit "OX 문제") types = false ->
  mem (lit "빈칸 문제") types = false ->
  generate_all fresh text types num_discussion num_tf num_blank
  = match generate_quiz fresh text num_tf num_blank with
    | Some _ => Some []
    | None => None
    end.
Proof.
  intros H1 H2 H3. unfold generate_all. rewrite H1, H2, H3.
  destruct (generate_quiz fresh text num_tf num_blank) as [quiz|];
    [|reflexivity].
  rewrite format_output_unfold. reflexivity.
Qed.

Lemma generate_all_nothing_selected_witness :
  generate_all (IL := default_limit) (DT := ascii_decimals)
               (RS := tape_source) [0; 0; 2]
               (lit "It was 5 years old.") [lit "OX"; lit "토론"] 3 3 3
  = match generate_quiz (IL := default_limit) (DT := ascii_decimals)
                        (RS := tape_source) [0; 0; 2]
                        (lit "It was 5 years old.") 3 3 with
    | Some _ => Some []
    | None => None
    end.
Proof.
  apply (generate_all_nothing_selected
           (IL := default_limit) (DT := ascii_decimals)
           (RS := tape_source)); reflexivity.
Defined.

(** The document of [generate_all] is made of the sections of the selected
    categories, in the order discussion, true/false, fill in the blank,
    whatever the order of the selection is; the topics are those of
    [generate_discussion_topics] and the items those of the quiz that
    [generate_quiz] returns; when [generate_quiz] raises, so does
    [generate_all]. *)
Theorem generate_all_sections
        {IL : IntLimit} {DT : DecimalTable} {R : Type} {RS : RandomSource R}
        (fresh : R) (text : str) (types : list str)
        (num_discussion num_tf num_blank : Z) :
  let topics := generate_discussion_topics text num_discussion in
  generate_all fresh text types num_discussion num_tf num_blank
  = match generate_quiz fresh text num_tf num_blank with
    | Some quiz =>
      Some ((if mem (lit "토론 주제") types && truthy topics
             then discussion_section topics else [])
            ++ (if mem (lit "OX 문제") types && truthy (tf quiz)
                then tf_section (tf quiz) else [])
            ++ (if mem (lit "빈칸 문제") types && truthy (blank quiz)
                then blank_section (blank quiz) else []))
    | None => None
    end.
Proof.
  cbv zeta. unfold generate_all.
  destruct (generate_quiz fresh text num_tf num_blank) as [quiz|];
    [|reflexivity].
  rewrite format_output_unfold.
  destruct (mem (lit "토론 주제") types); reflexivity.
Qed.

(* ================================================================= *)
(** * The shape of a token *)

Lemma match_run_opt_shape (p : char -> bool) (sep : char) (s t r : str) :
  match_run_opt p sep s = Some (t, r) -> run_shape p sep t.
Proof.
  unfold match_run_opt.
  destruct (span p s) as [a r0] eqn:E.
  destruct (TokenFacts.span_spec _ _ _ _ E) as [_ [Ha _]].
  destruct a as [|c a]; [discriminate|].
  assert (Plain : run_shape p sep (c :: a))
    by (left; split; [discriminate | exact Ha]).
  destruct r0 as [|d r0'].
  - intros H. injection H as <- _. exact Plain.
  - destruct (d =? sep) eqn:D.
    + destruct (span p r0') as [b r1] eqn:E2.
      destruct (TokenFacts.span_spec _ _ _ _ E2) as [_ [Hb _]].
      destruct b as [|e b].
      * intros H. injection H as <- _. exact Plain.
      * intros H. injection H as <- _. right.
        exists (c :: a), (e :: b).
        repeat split; try discriminate; assumption.
    + intros H. injection H as <- _. exact Plain.
Qed.

(** A token is a word of ASCII letters, with at most one apostrophe
    inside, or a number of ASCII digits, with at most one dot inside, or a
    run of Hangul syllables. *)
Theorem tokenize_shape (s : str) :
  Forall (fun t => run_shape is_alpha 39 t
                   \/ run_shape is_digit 46 t
                   \/ (t <> [] /\ forallb is_hangul t = true))
         (tokenize s).
Proof.
  apply Forall_forall. intros t H.
  destruct (finditer_In _ TokenFacts.WORD_PATTERN_productive _ _ _ H)
    as [pre [s' [r [_ Hp]]]].
  unfold WORD_PATTERN in Hp.
  destruct (match_run_opt is_alpha 39 s') as [[t1 r1]|] eqn:A.
  - injection Hp as <- _. left.
    exact (match_run_opt_shape _ _ _ _ _ A).
  - destruct (match_run_opt is_digit 46 s') as [[t2 r2]|] eqn:D.
    + injection Hp as <- _. right. left.
      exact (match_run_opt_shape _ _ _ _ _ D).
    + right. right. split.
      * exact (proj2 (match_run_productive is_hangul _ _ _ Hp)).
      * exact (match_run_all _ _ _ _ Hp).
Qed.

(* ================================================================= *)
(** * Further properties of the scores *)

Lemma score_tokens_unfold (text : str) (sents : list str) :
  score_tokens text sents
  = sorted_reverse snd
      (map (fun tf : str * Z => (fst tf, score_of (fst tf) (snd tf)))
           (Counter (filter (fun t => negb (mem (lower t) STOPWORDS))
                            (flat_map tokenize sents)))).
Proof.
  unfold score_tokens. rewrite tokens_flat_map. cbn [app].
  rewrite scores_map by apply Counter_spec. reflexivity.
Qed.

Lemma frequency_In (t : str) (l : list str) : In t l -> 1 <= frequency t l.
Proof.
  unfold frequency. induction l as [|x l IH]; simpl; [tauto|].
  intros [-> | H].
  - rewrite StrFacts.eqb_refl. simpl length. lia.
  - specialize (IH H). destruct (eqb t x); simpl length; lia.
Qed.

Lemma score_of_bound (t : str) (f : Z) :
  1 <= f -> 1 <= len t -> (5 # 4 <= score_of t f)%Q.
Proof.
  intros Hf Ht. unfold score_of, Qle, Qplus, Qdiv, Qmult, Qinv, inject_Z.
  cbn [Qnum Qden]. simpl. lia.
Qed.

(** Every score is at least 5/4: a term occurs once at least and has one
    character at least. *)
Theorem score_tokens_bound (text : str) (sents : list str) :
  Forall (fun ts => (5 # 4 <= snd ts)%Q /\ fst ts <> [])
         (score_tokens text sents).
Proof.
  rewrite score_tokens_unfold. apply Forall_forall. intros [t sc] H.
  apply (Permutation_in _ (Permutation_sym (sorted_reverse_perm snd _))) in H.
  apply in_map_iff in H. destruct H as [[t' f] [Hg Hin]].
  cbn [fst snd] in Hg. injection Hg as -> <-.
  set (kept := filter (fun t => negb (mem (lower t) STOPWORDS))
                      (flat_map tokenize sents)) in *.
  destruct (Counter_spec kept) as [C1 [C2 C3]].
  assert (Hk : In t kept).
  { apply C2. apply in_map_iff. exists (t, f). split; [reflexivity | exact Hin]. }
  pose proof (dict_get_In _ _ _ _ C1 Hin) as Hget. rewrite C3 in Hget.
  destruct (frequency t kept =? 0); [discriminate|].
  injection Hget as <-.
  assert (Hne : t <> []).
  { unfold kept in Hk. apply filter_In in Hk. destruct Hk as [Hk _].
    apply in_flat_map in Hk. destruct Hk as [s [_ Hs]].
    apply (tokenize_substring s t Hs). }
  cbn [fst snd]. split; [|exact Hne].
  apply score_of_bound; [apply frequency_In; exact Hk|].
  unfold len. destruct t; [congruence | simpl length; lia].
Qed.

Lemma frequency_perm (t : str) (l1 l2 : list str) :
  Permutation l1 l2 -> frequency t l1 = frequency t l2.
Proof.
  intros P. unfold frequency. f_equal.
  induction P; simpl; try lia.
  - destruct (eqb t x); simpl; lia.
  - destruct (eqb t x), (eqb t y); simpl; lia.
Qed.

Lemma dict_get_Some_In {V : Type} (k : str) (v : V) (d : list (str * V)) :
  dict_get k d = Some v -> In (k, v) d.
Proof.
  induction d as [|[k0 v0] d IH]; simpl; [discriminate|].
  destruct (eqb k0 k) eqn:E.
  - apply StrFacts.eqb_eq in E. subst k0.
    intros H. injection H as <-. left. reflexivity.
  - intros H. right. apply IH. exact H.
Qed.

Lemma Counter_In (l : list str) (t : str) (f : Z) :
  In (t, f) (Counter l) <-> In t l /\ f = frequency t l.
Proof.
  destruct (Counter_spec l) as [C1 [C2 C3]]. split.
  - intros H. split.
    + apply C2. apply in_map_iff. exists (t, f). auto.
    + pose proof (dict_get_In _ _ _ _ C1 H) as G. rewrite C3 in G.
      destruct (frequency t l =? 0); [discriminate|].
      injection G as <-. reflexivity.
  - intros [H ->]. apply dict_get_Some_In. rewrite C3.
    pose proof (frequency_In _ _ H) as F.
    destruct (frequency t l =? 0) eqn:E; [apply Z.eqb_eq in E; lia|].
    reflexivity.
Qed.

Lemma Counter_perm (l1 l2 : list str) :
  Permutation l1 l2 -> Permutation (Counter l1) (Counter l2).
Proof.
  intros P. apply NoDup_Permutation.
  - apply (NoDup_map_inv fst). apply Counter_spec.
  - apply (NoDup_map_inv fst). apply Counter_spec.
  - intros [t f]. rewrite !Counter_In, (frequency_perm t l1 l2 P).
    split; intros [H1 H2]; (split; [|exact H2]).
    + exact (Permutation_in _ P H1).
    + exact (Permutation_in _ (Permutation_sym P) H1).
Qed.

Lemma filter_perm {A : Type} (f : A -> bool) (l1 l2 : list A) :
  Permutation l1 l2 -> Permutation (filter f l1) (filter f l2).
Proof.
  intros P. induction P; simpl.
  - constructor.
  - destruct (f x); [constructor|]; assumption.
  - destruct (f x), (f y); try reflexivity. apply perm_swap.
  - etransitivity; eassumption.
Qed.

(** The order of the sentences has no part in which terms are scored, nor
    in their scores: the result for the sentences in another order is a
    rearrangement of the result. *)
Theorem score_tokens_order_free (text : str) (sents1 sents2 : list str) :
  Permutation sents1 sents2 ->
  Permutation (score_tokens text sents1) (score_tokens text sents2).
Proof.
  intros P. rewrite !score_tokens_unfold.
  rewrite <- !sorted_reverse_perm.
  apply Permutation_map, Counter_perm, filter_perm.
  apply Permutation_flat_map. exact P.
Qed.

Lemma score_tokens_order_free_witness :
  Permutation
    (score_tokens [] [lit "Dogs bark!"; lit "The cat sat."])
    (score_tokens [] [lit "The cat sat."; lit "Dogs bark!"]).
Proof.
  apply (score_tokens_order_free []
           [lit "Dogs bark!"; lit "The cat sat."]
           [lit "The cat sat."; lit "Dogs bark!"]).
  apply perm_swap.
Defined.

Section Stable.

Context {A : Type} (key : A -> Q) (k : Q).

Lemma insert_desc_filter (x : A) (l : list A) :
  filter (fun a => Qeq_bool (key a) k) (insert_desc key x l)
  = filter (fun a => Qeq_bool (key a) k) (x :: l).
Proof.
  induction l as [|y l IH]; [reflexivity|].
  cbn [insert_desc].
  destruct (Qle_bool (key y) (key x)) eqn:L; [reflexivity|].
  cbn [filter] in *. rewrite IH.
  destruct (Qeq_bool (key y) k) eqn:Ey, (Qeq_bool (key x) k) eqn:Ex;
    try reflexivity.
  exfalso. apply Qeq_bool_iff in Ey. apply Qeq_bool_iff in Ex.
  assert (H : (key y <= key x)%Q) by (rewrite Ey, Ex; apply Qle_refl).
  apply Qle_bool_iff in H. congruence.
Qed.

Lemma sorted_reverse_filter (l : list A) :
  filter (fun a => Qeq_bool (key a) k) (sorted_reverse key l)
  = filter (fun a => Qeq_bool (key a) k) l.
Proof.
  induction l as [|x l IH]; [reflexivity|].
  cbn [sorted_reverse fold_right]. rewrite insert_desc_filter.
  cbn [filter]. unfold sorted_reverse in IH. rewrite IH. reflexivity.
Qed.

End Stable.

Lemma Counter_fold_keys (l : list str) :
  forall (d : list (str * Z)) (seen : list str),
    (forall t, mem t seen = true <-> In t (map fst d)) ->
    map fst
        (fold_left
           (fun c t =>
              dict_set t (match dict_get t c with
                          | Some n => n + 1
                          | None => 1
                          end) c) l d)
    = map fst d ++ first_occurrences seen l.
Proof.
  induction l as [|t l IH]; intros d seen H; cbn [fold_left first_occurrences].
  - rewrite app_nil_r. reflexivity.
  - destruct (mem t seen) eqn:M.
    + rewrite (IH _ seen); rewrite dict_set_keys;
        destruct (dict_get t d) eqn:G; try reflexivity; try exact H;
        apply dict_get_None in G; apply H in M; contradiction.
    + assert (G : dict_get t d = None).
      { apply dict_get_None. intros Hin. apply H in Hin. congruence. }
      rewrite (IH _ (t :: seen)); rewrite dict_set_keys, G.
      * rewrite <- app_assoc. reflexivity.
      * intros x. unfold mem in *. cbn [existsb].
        rewrite orb_true_iff, in_app_iff, StrFacts.eqb_eq, H. simpl.
        intuition congruence.
Qed.

Lemma Counter_entries (l : list str) :
  Counter l
  = map (fun t => (t, frequency t l)) (first_occurrences [] l).
Proof.
  assert (K : map fst (Counter l) = first_occurrences [] l).
  { unfold Counter. rewrite (Counter_fold_keys l [] []); [reflexivity|].
    intros t. simpl. split; [discriminate | tauto]. }
  rewrite <- K.
  assert (E : forall d : list (str * Z),
             (forall t f, In (t, f) d -> f = frequency t l) ->
             d = map (fun t => (t, frequency t l)) (map fst d)).
  { induction d as [|[t f] d IH]; intros H; [reflexivity|].
    cbn [map fst]. rewrite <- (H t f (or_introl eq_refl)).
    f_equal. apply IH. intros t' f' Hin. apply H. right. exact Hin. }
  apply E. intros t f Hin. apply Counter_In in Hin. tauto.
Qed.

(** The sort is stable: the terms of one score come in the order of their
    first occurrence among the tokens that are kept. *)
Theorem score_tokens_stable (text : str) (sents : list str) (k : Q) :
  let kept :=
    filter (fun t => negb (mem (lower t) STOPWORDS))
           (flat_map tokenize sents) in
  filter (fun ts => Qeq_bool (snd ts) k) (score_tokens text sents)
  = filter (fun ts => Qeq_bool (snd ts) k)
      (map (fun t => (t, score_of t (frequency t kept)))
           (first_occurrences [] kept)).
Proof.
  cbv zeta. rewrite score_tokens_unfold, sorted_reverse_filter.
  rewrite Counter_entries, map_map. reflexivity.
Qed.

(* ================================================================= *)
(** * Further properties of the sentences *)

Lemma lstrip_In (c : char) (s : str) : In c (lstrip s) -> In c s.
Proof.
  intros H. destruct (lstrip_suffix s) as [pre E]. rewrite E.
  apply in_or_app. right. exact H.
Qed.

Lemma strip_In (c : char) (s : str) : In c (strip s) -> In c s.
Proof.
  unfold strip. intros H.
  apply in_rev in H. apply lstrip_In in H. apply in_rev in H.
  apply lstrip_In in H. exact H.
Qed.

Lemma sub_spaces_In (c : char) (in_run : bool) (text : str) :
  In c (sub_spaces in_run text) ->
  (isspace c = true -> c = 32) /\ (c = 32 \/ In c text).
Proof.
  revert in_run. induction text as [|x text IH]; intros in_run; simpl;
    [tauto|].
  destruct (isspace x) eqn:E.
  - destruct in_run.
    + intros H. destruct (IH _ H) as [H1 H2]. tauto.
    + intros [<- | H]; [auto|]. destruct (IH _ H) as [H1 H2]. tauto.
  - intros [<- | H].
    + split; [congruence | auto].
    + destruct (IH _ H) as [H1 H2]. tauto.
Qed.

Lemma push_In (c : char) (parts : list str) (p : str) (x : char) :
  In p (push c parts) -> In x p ->
  x = c \/ exists p', In p' parts /\ In x p'.
Proof.
  destruct parts as [|p0 ps]; simpl.
  - intros [<- | []] [<- | []]. left; reflexivity.
  - intros [<- | H] Hx.
    + destruct Hx as [<- | Hx]; [left; reflexivity|].
      right. exists p0. auto.
    + right. exists p. auto.
Qed.

Lemma split_after_end_In (text : str) :
  forall (prev : option char) (in_sep : bool) (p : str) (x : char),
    In p (split_after_end prev in_sep text) -> In x p -> In x text.
Proof.
  induction text as [|c r IH]; intros prev in_sep p x; simpl.
  - intros [<- | []] [].
  - destruct (isspace c).
    + destruct in_sep.
      * intros H Hx. right. exact (IH _ _ _ _ H Hx).
      * destruct (sentence_end prev).
        -- intros [<- | H] Hx; [destruct Hx|].
           right. exact (IH _ _ _ _ H Hx).
        -- intros H Hx. destruct (push_In _ _ _ _ H Hx) as [-> | [p' [H1 H2]]];
             [left; reflexivity | right; exact (IH _ _ _ _ H1 H2)].
    + intros H Hx. destruct (push_In _ _ _ _ H Hx) as [-> | [p' [H1 H2]]];
        [left; reflexivity | right; exact (IH _ _ _ _ H1 H2)].
Qed.

(** The white space of a sentence is made of plain spaces: tabs, line
    breaks and the other white space of the text are replaced before the
    text is cut; and every character of a sentence other than the plain
    space is a character of the text. *)
Theorem split_sentences_spaces (text : str) :
  Forall (fun x =>
            Forall (fun c => (isspace c = true -> c = 32)
                             /\ (c = 32 \/ In c text)) x)
         (split_sentences text).
Proof.
  unfold split_sentences. destruct text as [|c0 text]; [constructor|].
  apply Forall_forall. intros x Hx. apply Forall_forall. intros c Hc.
  apply in_map_iff in Hx. destruct Hx as [p [<- Hp]].
  apply filter_In in Hp. destruct Hp as [Hp _].
  apply strip_In in Hc.
  pose proof (split_after_end_In _ _ _ _ _ Hp Hc) as H.
  apply strip_In in H. exact (sub_spaces_In _ _ _ H).
Qed.

(* ================================================================= *)
(** * The true/false items of the quiz *)

Section Items.

Context {IL : IntLimit} {DT : DecimalTable}.
Context {R : Type} {RS : RandomSource R}.

Variables (num_tf num_blank : Z) (scored : list (str * Q)).

Lemma rounds_tf_from (todo : list str) :
  forall (done rest : list str) (w w' : Walk (R := R)),
    rounds num_tf num_blank scored todo w = Some w' ->
    Forall2 (tf_made_from scored) done (tf_list w) ->
    (rest = [] \/ (Z.of_nat (length (tf_list w)) <? num_tf) = false) ->
    exists done' rest',
      done ++ rest ++ todo = done' ++ rest'
      /\ Forall2 (tf_made_from scored) done' (tf_list w').
Proof.
  induction todo as [|s todo IH]; intros done rest w w' W F H;
    cbn [rounds] in W.
  - injection W as <-. exists done, rest. rewrite app_nil_r.
    split; [reflexivity | exact F].
  - destruct (quiz_round num_tf num_blank scored s w) as [w1|] eqn:Q;
      [|discriminate].
    destruct (quiz_round_tf num_tf num_blank scored s w w1 Q)
      as [[L [item [M E]]] | [L [E _]]].
    + destruct H as [-> | H]; [|congruence].
      destruct (IH (done ++ [s]) [] w1 w' W) as [done' [rest' [D F']]].
      * rewrite E. apply Forall2_app; [exact F|].
        constructor; [exact M | constructor].
      * left. reflexivity.
      * exists done', rest'. split; [|exact F'].
        rewrite <- D. cbn [app]. rewrite <- app_assoc. reflexivity.
    + destruct (IH done (rest ++ [s]) w1 w' W) as [done' [rest' [D F']]].
      * rewrite E. exact F.
      * right. rewrite E. exact L.
      * exists done', rest'. split; [|exact F'].
        rewrite <- D. rewrite <- !app_assoc. reflexivity.
Qed.

End Items.

(** The true/false items are made from the first sentences of the text,
    one item for each, in their order. *)
Theorem generate_quiz_tf_items
        {IL : IntLimit} {DT : DecimalTable} {R : Type} {RS : RandomSource R}
        (fresh : R) (text : str) (num_tf num_blank : Z) (quiz : Quiz) :
  generate_quiz fresh text num_tf num_blank = Some quiz ->
  exists first rest,
    split_sentences text = first ++ rest
    /\ Forall2 (tf_made_from (R := R)
                  (score_tokens text (split_sentences text)))
               first (tf quiz).
Proof.
  rewrite generate_quiz_rounds.
  destruct (rounds num_tf num_blank _ _ _) as [w'|] eqn:W; [|discriminate].
  intros H. injection H as <-. cbn [tf].
  destruct (rounds_tf_from num_tf num_blank _ _ [] [] _ _ W)
    as [first [rest [D F]]].
  - constructor.
  - left. reflexivity.
  - exists first, rest. split; [exact D | exact F].
Qed.

Lemma generate_quiz_tf_items_witness :
  exists first rest,
    split_sentences (lit "It was 5 years old.") = first ++ rest
    /\ Forall2 (tf_made_from (IL := default_limit) (DT := ascii_decimals)
                  (RS := tape_source)
                  (score_tokens (lit "It was 5 years old.")
                     (split_sentences (lit "It was 5 years old."))))
               first
               (tf (sample_quiz [0; 0; 2] (lit "It was 5 years old."))).
Proof.
  apply (generate_quiz_tf_items
           (IL := default_limit) (DT := ascii_decimals) (RS := tape_source)
           [0; 0; 2] (lit "It was 5 years old.") 3 3).
  reflexivity.
Defined.

(* ================================================================= *)
(** * The choice of the answer *)

Lemma max_by_len_longest (t0 : str) (ts : list str) :
  forall t, In t (t0 :: ts) -> len t <= len (max_by_len t0 ts).
Proof.
  unfold max_by_len. revert t0.
  induction ts as [|x ts IH]; intros t0 t; cbn [fold_left].
  - intros [<- | []]. lia.
  - intros H.
    assert (M : len t0 <= len (if len t0 <? len x then x else t0)
                /\ len x <= len (if len t0 <? len x then x else t0)).
    { destruct (len t0 <? len x) eqn:E;
        [apply Z.ltb_lt in E | apply Z.ltb_ge in E]; lia. }
    pose proof (IH (if len t0 <? len x then x else t0)) as IH'.
    pose proof (IH' (if len t0 <? len x then x else t0) (or_introl eq_refl)).
    destruct H as [<- | [<- | H]]; try lia.
    apply IH'. right. exact H.
Qed.

Lemma filter_first {A : Type} (f : A -> bool) (l : list A) (c : A)
      (cs : list A) :
  filter f l = c :: cs ->
  exists before after,
    l = before ++ c :: after
    /\ f c = true
    /\ forallb (fun t => negb (f t)) before = true.
Proof.
  induction l as [|x l IH]; cbn [filter]; [discriminate|].
  destruct (f x) eqn:E.
  - intros H. injection H as -> _. exists [], l. auto.
  - intros H. destruct (IH H) as [before [after [H1 [H2 H3]]]].
    exists (x :: before), after. rewrite H1. cbn [forallb].
    rewrite E, H3. auto.
Qed.

Lemma filter_none {A : Type} (f : A -> bool) (l : list A) :
  filter f l = [] -> forallb (fun t => negb (f t)) l = true.
Proof.
  induction l as [|x l IH]; cbn [filter forallb]; [reflexivity|].
  destruct (f x); [discriminate|]. exact IH.
Qed.

(** The answer is the first token of two characters or more that is not a
    stop word; when the sentence has no such token, it is a longest
    token. *)
Theorem make_fill_in_blank_answer
        (sent : str) (scored : list (str * Q)) (q a : str) :
  make_fill_in_blank sent scored = Some (q, a) ->
  (exists before after,
      tokenize sent = before ++ a :: after
      /\ eligible a = true
      /\ forallb (fun t => negb (eligible t)) before = true)
  \/ (forallb (fun t => negb (eligible t)) (tokenize sent) = true
      /\ In a (tokenize sent)
      /\ forall t, In t (tokenize sent) -> len t <= len a).
Proof.
  rewrite make_fill_in_blank_candidates. unfold candidates_of.
  change (fun t : str => (2 <=? len t) && negb (mem t STOPWORDS))
    with eligible.
  destruct (filter eligible (tokenize sent)) as [|c cs] eqn:F.
  - destruct (tokenize sent) as [|t0 ts] eqn:T; [discriminate|].
    rewrite first_target_head
      by (rewrite T; apply max_by_len_In).
    intros H. injection H as _ <-. right.
    split; [exact (filter_none _ _ F)|].
    split; [apply max_by_len_In | apply max_by_len_longest].
  - assert (Hc : In c (tokenize sent)).
    { assert (Hin : In c (filter eligible (tokenize sent)))
        by (rewrite F; left; reflexivity).
      apply filter_In in Hin. tauto. }
    rewrite (first_target_head _ _ _ Hc).
    intros H. injection H as _ <-. left.
    exact (filter_first _ _ _ _ F).
Qed.

(** A sentence of short words and stop words: the fallback gives its
    longest token. *)
Lemma make_fill_in_blank_answer_witness :
  (exists before after,
      tokenize (lit "a of I") = before ++ lit "of" :: after
      /\ eligible (lit "of") = true
      /\ forallb (fun t => negb (eligible t)) before = true)
  \/ (forallb (fun t => negb (eligible t)) (tokenize (lit "a of I")) = true
      /\ In (lit "of") (tokenize (lit "a of I"))
      /\ forall t, In t (tokenize (lit "a of I")) -> len t <= len (lit "of")).
Proof.
  apply (make_fill_in_blank_answer (lit "a of I") [] (lit "a ____ I")
                                   (lit "of")).
  reflexivity.
Defined.

(* ================================================================= *)
(** * Tokens and separators *)

Lemma span_separator (p : char -> bool) (c : char) (a b : str) :
  p c = false ->
  span p (a ++ c :: b) = (fst (span p a), snd (span p a) ++ c :: b).
Proof.
  intros Hc. induction a as [|x a IH]; cbn [app span].
  - rewrite Hc. reflexivity.
  - destruct (p x); [|reflexivity].
    rewrite IH. destruct (span p a). reflexivity.
Qed.

Lemma match_run_carries (p : char -> bool) (c : char) :
  p c = false -> carries (match_run p) c.
Proof.
  intros Hc a b. unfold match_run. rewrite (span_separator p c a b Hc).
  destruct (span p a) as [[|x t] r]; reflexivity.
Qed.

Lemma match_run_opt_carries (p : char -> bool) (sep c : char) :
  p c = false -> c <> sep -> carries (match_run_opt p sep) c.
Proof.
  intros Hc Hs a b. unfold match_run_opt.
  rewrite (span_separator p c a b Hc).
  destruct (span p a) as [[|x t] r]; cbn [fst snd]; [reflexivity|].
  destruct r as [|d r']; cbn [app].
  - apply Z.eqb_neq in Hs. rewrite Hs. reflexivity.
  - destruct (d =? sep); [|reflexivity].
    rewrite (span_separator p c r' b Hc).
    destruct (span p r') as [[|e g] r2]; reflexivity.
Qed.

Lemma separator_spec (c : char) :
  separator c = true ->
  is_alpha c = false /\ is_digit c = false /\ is_hangul c = false
  /\ c <> 39 /\ c <> 46.
Proof.
  unfold separator. intros H. apply negb_true_iff in H.
  apply orb_false_iff in H. destruct H as [H H46].
  apply orb_false_iff in H. destruct H as [H H39].
  apply orb_false_iff in H. destruct H as [H Hh].
  apply orb_false_iff in H. destruct H as [Ha Hd].
  apply Z.eqb_neq in H39. apply Z.eqb_neq in H46. auto.
Qed.

Lemma WORD_PATTERN_carries (c : char) :
  separator c = true -> carries WORD_PATTERN c.
Proof.
  intros H. destruct (separator_spec c H) as [Ha [Hd [Hh [H39 H46]]]].
  intros a b. unfold WORD_PATTERN.
  rewrite (match_run_opt_carries is_alpha 39 c Ha H39 a b).
  destruct (match_run_opt is_alpha 39 a) as [[t r]|]; [reflexivity|].
  rewrite (match_run_opt_carries is_digit 46 c Hd H46 a b).
  destruct (match_run_opt is_digit 46 a) as [[t r]|]; [reflexivity|].
  apply (match_run_carries is_hangul c Hh).
Qed.

Lemma finditer_separator (pat : str -> option (str * str)) (c : char)
      (b : str) :
  productive pat -> carries pat c -> pat [] = None ->
  forall (n : nat) (a : str) (fuel : nat),
    (length a <= n)%nat -> (length (a ++ c :: b) <= fuel)%nat ->
    finditer pat fuel (a ++ c :: b)
    = finditer pat (length a) a ++ finditer pat (length b) b.
Proof.
  intros Hprod Hcar Hnil.
  induction n as [|n IH]; intros a fuel Ha Hf.
  - destruct a; [|simpl in Ha; lia]. cbn [app length] in *.
    destruct fuel as [|f]; [lia|]. cbn [finditer].
    pose proof (Hcar [] b) as C. cbn [app] in C. rewrite Hnil in C.
    rewrite C. apply (finditer_fuel pat Hprod). lia.
  - destruct a as [|x a].
    + cbn [app length] in *.
      destruct fuel as [|f]; [lia|]. cbn [finditer].
      pose proof (Hcar [] b) as C. cbn [app] in C. rewrite Hnil in C.
      rewrite C. apply (finditer_fuel pat Hprod). lia.
    + destruct fuel as [|f]; [cbn [app length] in Hf; lia|].
      change ((x :: a) ++ c :: b) with (x :: (a ++ c :: b)) in *.
      cbn [finditer length].
      change (x :: (a ++ c :: b)) with ((x :: a) ++ c :: b).
      rewrite (Hcar (x :: a) b).
      cbn [length] in Ha, Hf. rewrite length_app in Hf. cbn [length] in Hf.
      destruct (pat (x :: a)) as [[t r]|] eqn:P.
      * destruct (Hprod _ _ _ P) as [E Hne].
        assert (Hr : (length r <= length a)%nat).
        { apply (f_equal (@length char)) in E.
          rewrite length_app in E. cbn [length] in E.
          destruct t; [congruence|]. cbn [length] in E. lia. }
        rewrite (IH r f) by (try rewrite length_app; cbn [length]; lia).
        rewrite (finditer_fuel pat Hprod (length a) r Hr). reflexivity.
      * apply IH; [lia | rewrite length_app; cbn [length]; lia].
Qed.

(** The tokens of two texts with a separator between them are the tokens
    of the first followed by the tokens of the second: what is not a
    letter, a digit, a Hangul syllable, an apostrophe or a dot ends a
    token. *)
Theorem tokenize_separator (a b : str) (c : char) :
  separator c = true ->
  tokenize (a ++ c :: b) = tokenize a ++ tokenize b.
Proof.
  intros H. unfold tokenize.
  apply (finditer_separator WORD_PATTERN c b
           TokenFacts.WORD_PATTERN_productive (WORD_PATTERN_carries c H)
           eq_refl (length a) a); apply Nat.le_refl.
Qed.

Lemma tokenize_separator_witness :
  tokenize (lit "Dogs" ++ 32 :: lit "bark!")
  = tokenize (lit "Dogs") ++ tokenize (lit "bark!").
Proof.
  apply (tokenize_separator (lit "Dogs") (lit "bark!") 32). reflexivity.
Defined.

(* ================================================================= *)
(** * Sentences are cut once *)

Lemma sub_spaces_single (text : str) :
  forall b, single_spaced b (sub_spaces b text) = true.
Proof.
  induction text as [|c r IH]; intros b; cbn [sub_spaces]; [reflexivity|].
  destruct (isspace c) eqn:E.
  - destruct b; [apply IH|].
    cbn [single_spaced].
    change (isspace 32) with true. cbv iota.
    rewrite IH. reflexivity.
  - cbn [single_spaced]. rewrite E. apply IH.
Qed.

Lemma single_mono (b : bool) (s : str) :
  single_spaced b s = true -> single_spaced false s = true.
Proof.
  destruct s as [|c r]; [reflexivity|]. cbn [single_spaced].
  destruct (isspace c); [|auto].
  destruct b; [|auto].
  rewrite andb_false_r. discriminate.
Qed.

Lemma single_suffix (pre s : str) :
  forall b, single_spaced b (pre ++ s) = true -> single_spaced false s = true.
Proof.
  induction pre as [|c pre IH]; intros b; cbn [app].
  - apply single_mono.
  - cbn [single_spaced]. destruct (isspace c).
    + intros H. apply andb_true_iff in H. destruct H as [_ H].
      exact (IH _ H).
    + apply IH.
Qed.

Lemma single_prefix (s post : str) :
  forall b, single_spaced b (s ++ post) = true -> single_spaced b s = true.
Proof.
  induction s as [|c s IH]; intros b; cbn [app single_spaced];
    [reflexivity|].
  destruct (isspace c).
  - intros H. apply andb_true_iff in H. destruct H as [H1 H2].
    rewrite H1, (IH _ H2). reflexivity.
  - apply IH.
Qed.

Lemma sub_spaces_fix (s : str) :
  forall b, single_spaced b s = true -> sub_spaces b s = s.
Proof.
  induction s as [|c s IH]; intros b; cbn [single_spaced sub_spaces];
    [reflexivity|].
  destruct (isspace c).
  - intros H. apply andb_true_iff in H. destruct H as [H1 H2].
    apply andb_true_iff in H1. destruct H1 as [Hc Hb].
    apply Z.eqb_eq in Hc. apply negb_true_iff in Hb. subst c b.
    rewrite (IH _ H2). reflexivity.
  - intros H. rewrite (IH _ H). reflexivity.
Qed.

(** What [strip] keeps is one piece of the string. *)
Lemma strip_piece (s : str) : exists pre post, s = pre ++ strip s ++ post.
Proof.
  unfold strip.
  destruct (lstrip_suffix s) as [pre Hp].
  destruct (lstrip_suffix (rev (lstrip s))) as [pre2 Hq].
  exists pre, (rev pre2).
  rewrite <- rev_app_distr, <- Hq, rev_involutive. exact Hp.
Qed.

Lemma unbroken_mono (prev : option char) (s : str) :
  unbroken prev s = true -> unbroken None s = true.
Proof.
  destruct s as [|c r]; [reflexivity|]. cbn [unbroken sentence_end].
  intros H. apply andb_true_iff in H. destruct H as [_ H].
  rewrite andb_false_r. exact H.
Qed.

Lemma unbroken_suffix (pre s : str) :
  forall prev, unbroken prev (pre ++ s) = true -> unbroken None s = true.
Proof.
  induction pre as [|c pre IH]; intros prev; cbn [app].
  - apply unbroken_mono.
  - cbn [unbroken]. intros H. apply andb_true_iff in H.
    destruct H as [_ H]. exact (IH _ H).
Qed.

Lemma unbroken_prefix (s post : str) :
  forall prev, unbroken prev (s ++ post) = true -> unbroken prev s = true.
Proof.
  induction s as [|c s IH]; intros prev; cbn [app unbroken]; [reflexivity|].
  intros H. apply andb_true_iff in H. destruct H as [H1 H2].
  rewrite H1, (IH _ H2). reflexivity.
Qed.

Lemma split_after_end_unbroken (text : str) :
  forall (prev : option char) (in_sep : bool),
  exists h tl,
    split_after_end prev in_sep text = h :: tl
    /\ (in_sep = false -> unbroken prev h = true)
    /\ unbroken None h = true
    /\ Forall (fun p => unbroken None p = true) tl.
Proof.
  induction text as [|c r IH]; intros prev in_sep; cbn [split_after_end].
  - exists [], []. repeat split; constructor.
  - destruct (isspace c) eqn:E.
    + destruct in_sep.
      * destruct (IH (Some c) true) as [h [tl [H1 [_ [H3 H4]]]]].
        exists h, tl. repeat split; try assumption. discriminate.
      * destruct (sentence_end prev) eqn:S.
        -- destruct (IH (Some c) true) as [h [tl [H1 [_ [H3 H4]]]]].
           exists [], (h :: tl). rewrite H1.
           repeat split; try reflexivity. constructor; assumption.
        -- destruct (IH (Some c) false) as [h [tl [H1 [H2 [H3 H4]]]]].
           exists (c :: h), tl. rewrite H1. cbn [push unbroken sentence_end].
           rewrite S, (H2 eq_refl), !andb_false_r. repeat split; assumption.
    + destruct (IH (Some c) false) as [h [tl [H1 [H2 [H3 H4]]]]].
      exists (c :: h), tl. rewrite H1. cbn [push unbroken].
      rewrite E, (H2 eq_refl). repeat split; assumption.
Qed.

Lemma split_after_end_single (text : str) :
  forall (prev : option char) (in_sep b : bool),
    single_spaced b text = true ->
    exists h tl,
      split_after_end prev in_sep text = h :: tl
      /\ (in_sep = false -> single_spaced b h = true)
      /\ single_spaced false h = true
      /\ Forall (fun p => single_spaced false p = true) tl.
Proof.
  induction text as [|c r IH]; intros prev in_sep b;
    cbn [split_after_end single_spaced].
  - intros _. exists [], []. repeat split; constructor.
  - destruct (isspace c) eqn:E.
    + intros H. apply andb_true_iff in H. destruct H as [Hc Hr].
      destruct in_sep.
      * destruct (IH (Some c) true true Hr) as [h [tl [H1 [_ [H3 H4]]]]].
        exists h, tl. repeat split; try assumption. discriminate.
      * destruct (sentence_end prev).
        -- destruct (IH (Some c) true true Hr) as [h [tl [H1 [_ [H3 H4]]]]].
           exists [], (h :: tl). rewrite H1.
           repeat split; try reflexivity. constructor; assumption.
        -- destruct (IH (Some c) false true Hr)
             as [h [tl [H1 [H2 [H3 H4]]]]].
           exists (c :: h), tl. rewrite H1. cbn [push].
           assert (Hh : single_spaced b (c :: h) = true).
           { cbn [single_spaced]. rewrite E, Hc, (H2 eq_refl). reflexivity. }
           split; [reflexivity|]. split; [intros _; exact Hh|].
           split; [exact (single_mono _ _ Hh) | exact H4].
    + intros Hr.
      destruct (IH (Some c) false false Hr) as [h [tl [H1 [H2 [H3 H4]]]]].
      exists (c :: h), tl. rewrite H1. cbn [push single_spaced].
      rewrite E. split; [reflexivity|]. split; [intros _; exact H3|].
      split; [exact H3 | exact H4].
Qed.

Lemma split_after_end_fix (s : str) :
  forall prev, unbroken prev s = true -> split_after_end prev false s = [s].
Proof.
  induction s as [|c s IH]; intros prev; cbn [unbroken split_after_end];
    [reflexivity|].
  intros H. apply andb_true_iff in H. destruct H as [H1 H2].
  rewrite (IH _ H2). cbn [push].
  destruct (isspace c); [|reflexivity].
  destruct (sentence_end prev); [discriminate | reflexivity].
Qed.

Lemma split_sentences_fix (x : str) :
  strip x = x -> 3 <= len x ->
  single_spaced false x = true -> unbroken None x = true ->
  split_sentences x = [x].
Proof.
  intros Hs H3 Hss Hu.
  assert (Hne : x <> [])
    by (intros ->; unfold len in H3; simpl in H3; lia).
  unfold split_sentences. destruct x as [|x0 x']; [congruence|].
  rewrite (sub_spaces_fix _ _ Hss), Hs, (split_after_end_fix _ _ Hu).
  cbn [filter]. rewrite Hs.
  apply Z.leb_le in H3. rewrite H3. cbn [map]. rewrite Hs. reflexivity.
Qed.

(** A sentence that [split_sentences] returns is trimmed, has three
    characters at least, single plain spaces for white space, and no white
    space after the end of a sentence. *)
Lemma sentence_facts (text x : str) :
  In x (split_sentences text) ->
  strip x = x /\ 3 <= len x
  /\ single_spaced false x = true /\ unbroken None x = true.
Proof.
  unfold split_sentences. destruct text as [|c0 text]; [intros []|].
  set (N := sub_spaces false (c0 :: text)).
  intros H. apply in_map_iff in H. destruct H as [p [<- Hp]].
  apply filter_In in Hp. destruct Hp as [Hp H3]. apply Z.leb_le in H3.
  assert (SN : single_spaced false (strip N) = true).
  { destruct (strip_piece N) as [pre [post E]].
    pose proof (sub_spaces_single (c0 :: text) false) as S. fold N in S.
    rewrite E in S. apply single_suffix in S.
    exact (single_prefix _ _ _ S). }
  assert (Sp : single_spaced false p = true).
  { destruct (split_after_end_single (strip N) None false false SN)
      as [h [tl [H1 [_ [Hh Htl]]]]].
    rewrite H1 in Hp. destruct Hp as [<- | Hp]; [exact Hh|].
    rewrite Forall_forall in Htl. exact (Htl _ Hp). }
  assert (Up : unbroken None p = true).
  { destruct (split_after_end_unbroken (strip N) None false)
      as [h [tl [H1 [_ [Hh Htl]]]]].
    rewrite H1 in Hp. destruct Hp as [<- | Hp]; [exact Hh|].
    rewrite Forall_forall in Htl. exact (Htl _ Hp). }
  destruct (strip_piece p) as [pre [post E]].
  split; [apply strip_idempotent|]. split; [exact H3|]. split.
  - rewrite E in Sp. apply single_suffix in Sp.
    exact (single_prefix _ _ _ Sp).
  - rewrite E in Up. apply unbroken_suffix in Up.
    exact (unbroken_prefix _ _ _ Up).
Qed.

(** Cutting the sentences of a text again changes nothing: each of them
    is one sentence, itself.  Inside a sentence the white space is single
    plain spaces, none of which follows the end of a sentence. *)
Theorem split_sentences_idempotent (text : str) :
  flat_map split_sentences (split_sentences text) = split_sentences text
  /\ Forall (fun x => split_sentences x = [x]
                      /\ single_spaced false x = true
                      /\ unbroken None x = true)
            (split_sentences text).
Proof.
  assert (F : forall x, In x (split_sentences text) ->
                        split_sentences x = [x]).
  { intros x H. destruct (sentence_facts text x H) as [H1 [H2 [H3 H4]]].
    apply split_sentences_fix; assumption. }
  split.
  - apply flat_map_singletons. exact F.
  - apply Forall_forall. intros x H.
    destruct (sentence_facts text x H) as [_ [_ [H3 H4]]].
    split; [exact (F x H) | split; assumption].
Qed.
